(** * A free-list allocator over [sbrk]: model of [src/alloc.c]

  The C translation unit keeps one global, [HEAD], and works on raw
  memory through [free_block] headers.  The development below embeds
  it over a flat byte-addressed memory, an explicit allocator state and
  a small outcome monad (normal return, [abort()], null dereference,
  exhausted fuel for the list-walking loops). *)

From Stdlib Require Import ZArith Lia List Bool.
Import ListNotations.
Local Open Scope Z_scope.

(** ** Machine integers (LP64, two's complement) *)

Module Machine.

(** [size_t], [uintptr_t] and pointer arithmetic wrap at 64 bits. *)
Definition wrap64 (x : Z) : Z := x mod 2 ^ 64.

(** [unsigned int] wraps at 32 bits. *)
Definition wrap32 (x : Z) : Z := x mod 2 ^ 32.

(** Conversion of a [size_t] to [int] (the [int size] parameter of
    [split]). *)
Definition to_int32 (x : Z) : Z := (x + 2 ^ 31) mod 2 ^ 32 - 2 ^ 31.

(** Conversion of a [size_t] to [intptr_t] (the argument of [sbrk]). *)
Definition to_int64 (x : Z) : Z := (x + 2 ^ 63) mod 2 ^ 64 - 2 ^ 63.

End Machine.

(** ** Byte-addressed memory, little endian *)

Module Mem.

(** A memory maps every address to a byte; only the low eight bits of
    a cell are ever observed.  Accesses outside the mapped address
    space are not modelled as traps. *)
Definition mem : Type := Z -> Z.

Definition byte_at (m : mem) (a : Z) : Z := m a mod 256.

Definition in_range (a n x : Z) : bool := (a <=? x) && (x <? a + n).

(** Read [n] bytes at [a] as a little-endian unsigned number. *)
Fixpoint load_le (n : nat) (m : mem) (a : Z) : Z :=
  match n with
  | O => 0
  | S k => byte_at m a + 256 * load_le k m (a + 1)
  end.

(** Write the low [n] bytes of [v] at [a], little endian. *)
Definition store_le (n : Z) (m : mem) (a v : Z) : mem :=
  fun x => if in_range a n x then (v / 256 ^ (x - a)) mod 256 else m x.

Definition load64 := load_le 8.
Definition load32 := load_le 4.
Definition store64 := store_le 8.
Definition store32 := store_le 4.

(** [memset(p, c, n)] and [memcpy(dst, src, n)]. *)
Definition memset (m : mem) (p c n : Z) : mem :=
  fun x => if in_range p n x then c mod 256 else m x.

Definition memcpy (m : mem) (dst src n : Z) : mem :=
  fun x => if in_range dst n x then byte_at m (src + (x - dst)) else m x.

End Mem.

(** ** Allocator state and outcomes *)

Module Alloc.
Import Machine Mem.

(** Modelled from the spec: [alloc.h] is not part of the sources, so the
    layout of [free_block] is taken from the data model (a header made of
    [size] and [next], the sentinel stamped over the start of the header):
    [size_t size] at offset 0 and [free_block *next] at offset 8 on an
    LP64 little-endian target, sixteen bytes in all. *)
Definition sizeof_free_block : Z := 16.
Definition off_size : Z := 0.
Definition off_next : Z := 8.

Definition ALIGNMENT : Z := 16.
Definition MAGIC : Z := 0x01234567.
Definition NULL : Z := 0.

(** [(void * ) -1], the failure value of [sbrk]. *)
Definition SBRK_FAILED : Z := 2 ^ 64 - 1.

Definition get_size (m : mem) (b : Z) : Z := load64 m (b + off_size).
Definition get_next (m : mem) (b : Z) : Z := load64 m (b + off_next).
Definition set_size (m : mem) (b v : Z) : mem := store64 m (b + off_size) v.
Definition set_next (m : mem) (b v : Z) : mem := store64 m (b + off_next) v.

(** What the allocator prints on standard output. *)
Inductive out_event : Type :=
| PrintRealloc (ptr size : Z)
| PrintCorruption
| PrintCorruptionAt (block_header : Z).

(** The process state the allocator reads and writes: memory, the global
    [HEAD], and the program break managed by the operating system
    ([brk_start] is where the heap begins, the break of the process before
    its first [sbrk]; [brk_limit] is the highest break the system grants;
    [sbrk_calls] counts the requests made to it). *)
Record state : Type := mkState {
  memory : mem;
  HEAD : Z;
  brk_start : Z;
  brk : Z;
  brk_limit : Z;
  sbrk_calls : nat;
  stdout : list out_event
}.

Definition set_memory (s : state) (m : mem) : state :=
  mkState m (HEAD s) (brk_start s) (brk s) (brk_limit s) (sbrk_calls s)
          (stdout s).

Definition set_HEAD (s : state) (h : Z) : state :=
  mkState (memory s) h (brk_start s) (brk s) (brk_limit s) (sbrk_calls s)
          (stdout s).

Definition print (s : state) (e : out_event) : state :=
  mkState (memory s) (HEAD s) (brk_start s) (brk s) (brk_limit s)
          (sbrk_calls s) (stdout s ++ [e]).

(** How a call ends: it returns, the process calls [abort()], it
    dereferences a null pointer, or a loop outlives its fuel. *)
Inductive outcome (A : Type) : Type :=
| Done (a : A)
| Abort (s : state)
| Fault
| Timeout.

Arguments Done {A} a.
Arguments Abort {A} s.
Arguments Fault {A}.
Arguments Timeout {A}.

Definition bind {A B : Type} (x : outcome A) (f : A -> outcome B) : outcome B :=
  match x with
  | Done a => f a
  | Abort s => Abort s
  | Fault => Fault
  | Timeout => Timeout
  end.

Notation "x <- c1 ;; c2" := (bind c1 (fun x => c2))
  (at level 61, c1 at next level, right associativity).

(** The outcomes of code that neither aborts nor dereferences null. *)
Definition returns_or_times_out {A : Type} (o : outcome A) : Prop :=
  match o with
  | Done _ | Timeout => True
  | Abort _ | Fault => False
  end.

(** ** The operating system's [sbrk] *)

(** [sbrk(increment)] moves the break by a signed amount and returns the
    old break, or refuses and returns [(void * ) -1].  The system refuses
    a break beyond [brk_limit], and it refuses to lower the break under
    the start of the heap. *)
Definition sbrk (s : state) (increment : Z) : state * Z :=
  let nb := brk s + increment in
  if (0 <=? nb) && (nb <=? brk_limit s)
     && ((brk s <=? nb) || (brk_start s <=? nb)) then
    (mkState (memory s) (HEAD s) (brk_start s) nb (brk_limit s)
             (S (sbrk_calls s)) (stdout s),
     brk s)
  else
    (mkState (memory s) (HEAD s) (brk_start s) (brk s) (brk_limit s)
             (S (sbrk_calls s)) (stdout s),
     SBRK_FAILED).

(** ** The functions of [alloc.c] *)

(** [split], lines 20-34.  [size] is an [int]; it is converted to
    [size_t] wherever it meets one. *)
Definition split (s : state) (block size : Z) : state * Z :=
  let m := memory s in
  if get_size m block <? wrap64 (wrap64 size + sizeof_free_block) then
    (s, NULL)
  else
    let split_pnt := wrap64 (block + size + sizeof_free_block) in
    let new_block := split_pnt in
    let m1 :=
      set_size m new_block
        (wrap64 (get_size m block - wrap64 size - sizeof_free_block)) in
    let m2 := set_next m1 new_block (get_next m1 block) in
    let m3 := set_size m2 block (wrap64 size) in
    (set_memory s m3, block).

(** [find_prev], lines 42-51. *)
Fixpoint find_prev_loop (fuel : nat) (m : mem) (curr block : Z) : outcome Z :=
  match fuel with
  | O => Timeout
  | S k =>
      if curr =? NULL then Done NULL
      else
        let next := wrap64 (curr + get_size m curr + sizeof_free_block) in
        if next =? block then Done curr
        else find_prev_loop k m (get_next m curr) block
  end.

Definition find_prev (fuel : nat) (s : state) (block : Z) : outcome Z :=
  find_prev_loop fuel (memory s) (HEAD s) block.

(** [find_next], lines 59-69. *)
Fixpoint find_next_loop (fuel : nat) (m : mem) (curr block_end : Z) : outcome Z :=
  match fuel with
  | O => Timeout
  | S k =>
      if curr =? NULL then Done NULL
      else if curr =? block_end then Done curr
      else find_next_loop k m (get_next m curr) block_end
  end.

Definition find_next (fuel : nat) (s : state) (block : Z) : outcome Z :=
  let block_end :=
    wrap64 (block + get_size (memory s) block + sizeof_free_block) in
  find_next_loop fuel (memory s) (HEAD s) block_end.

(** [remove_free_block], lines 76-89. *)
Fixpoint remove_loop (fuel : nat) (s : state) (curr block : Z) : outcome state :=
  match fuel with
  | O => Timeout
  | S k =>
      if curr =? NULL then Done s
      else if get_next (memory s) curr =? block then
        Done (set_memory s
                (set_next (memory s) curr (get_next (memory s) block)))
      else remove_loop k s (get_next (memory s) curr) block
  end.

Definition remove_free_block (fuel : nat) (s : state) (block : Z) : outcome state :=
  let curr := HEAD s in
  if curr =? block then Done (set_HEAD s (get_next (memory s) block))
  else remove_loop fuel s curr block.

(** The first [if] of [coalesce], lines 106-117: merge [block] into its
    previous neighbour.  Returns the memory and the block that the rest
    of [coalesce] goes on with. *)
Definition merge_prev (m : mem) (prev block : Z) : mem * Z :=
  if prev =? NULL then (m, block)
  else
    let end_of_prev := wrap64 (prev + get_size m prev + sizeof_free_block) in
    if end_of_prev =? block then
      let m1 :=
        set_size m prev
          (wrap64 (get_size m prev
                   + wrap64 (get_size m block + sizeof_free_block))) in
      let m2 :=
        if get_next m1 prev =? block
        then set_next m1 prev (get_next m1 block)
        else m1 in
      (m2, prev)
    else (m, block).

(** The second [if] of [coalesce], lines 120-128: absorb the next
    neighbour. *)
Definition merge_next (m : mem) (block next : Z) : mem :=
  if next =? NULL then m
  else
    let end_of_block := wrap64 (block + get_size m block + sizeof_free_block) in
    if end_of_block =? next then
      let m1 :=
        set_size m block
          (wrap64 (get_size m block
                   + wrap64 (get_size m next + sizeof_free_block))) in
      set_next m1 block (get_next m1 next)
    else m.

(** [coalesce], lines 97-131. *)
Definition coalesce (fuel : nat) (s : state) (block : Z) : outcome (state * Z) :=
  if block =? NULL then Done (s, NULL)
  else
    prev <- find_prev fuel s block ;;
    next <- find_next fuel s block ;;
    let '(m1, block1) := merge_prev (memory s) prev block in
    let m2 := merge_next m1 block1 next in
    Done (set_memory s m2, block1).

(** [do_alloc], lines 139-149. *)
Definition do_alloc (s : state) (size : Z) : state * Z :=
  let '(s1, ptr) := sbrk s (to_int64 (wrap64 (size + sizeof_free_block))) in
  let ptr :=
    if negb (ptr mod ALIGNMENT =? 0) then
      Z.land (wrap64 (wrap64 (ptr + ALIGNMENT) - 1))
             (wrap64 (Z.lnot (ALIGNMENT - 1)))
    else ptr in
  if ptr =? SBRK_FAILED then (s1, NULL) else (s1, ptr).

(** The body of the [if (size <= curr->size)] in [tumalloc], lines
    166-179: split, unlink, write the size, stamp the magic number.  The
    second component is [split_ptr]; when it is null the caller returns
    null. *)
Definition take_block (fuel : nat) (s : state) (curr size : Z) : outcome (state * Z) :=
  let '(s1, split_ptr) :=
    split s curr (to_int32 (wrap64 (size + sizeof_free_block))) in
  if split_ptr =? NULL then Done (s1, NULL)
  else
    s2 <- remove_free_block fuel s1 curr ;;
    let allocated_block := split_ptr in
    let m1 := set_size (memory s2) allocated_block size in
    let m2 := store32 m1 split_ptr MAGIC in
    Done (set_memory s2 m2, split_ptr).

(** The [while] loop of [tumalloc], lines 164-183.  [Some p] is an early
    [return p]; [None] means the loop ran to its end. *)
Fixpoint tumalloc_scan (fuel : nat) (s : state) (curr size : Z) : outcome (state * option Z) :=
  match fuel with
  | O => Timeout
  | S k =>
      if curr =? NULL then Done (s, None)
      else if size <=? get_size (memory s) curr then
        r <- take_block fuel s curr size ;;
        let '(s1, split_ptr) := r in
        if split_ptr =? NULL then Done (s1, Some NULL)
        else tumalloc_scan k s1 (get_next (memory s1) curr) size
      else tumalloc_scan k s (get_next (memory s) curr) size
  end.

(** [tumalloc], lines 157-192. *)
Definition tumalloc (fuel : nat) (s : state) (size : Z) : outcome (state * Z) :=
  if HEAD s =? NULL then
    Done (do_alloc s (wrap64 (size + sizeof_free_block)))
  else
    r <- tumalloc_scan fuel s (HEAD s) size ;;
    match r with
    | (s1, Some p) => Done (s1, p)
    | (s1, None) =>
        let '(s2, ptr) := do_alloc s1 (wrap64 (size + sizeof_free_block)) in
        let new_block := ptr in
        if new_block =? NULL then Fault
        else
          let m1 := set_size (memory s2) new_block size in
          let m2 := set_next m1 new_block NULL in
          Done (set_memory s2 m2, wrap64 (ptr + sizeof_free_block))
    end.

(** [tucalloc], lines 201-210. *)
Definition tucalloc (fuel : nat) (s : state) (num size : Z) : outcome (state * Z) :=
  let total_size := wrap64 (num * size) in
  r <- tumalloc fuel s total_size ;;
  let '(s1, ptr) := r in
  if negb (ptr =? NULL) then
    Done (set_memory s1 (memset (memory s1) ptr 0 total_size), ptr)
  else Done (s1, ptr).

(** Lines 257-258 of [tufree]: [free_block->next = HEAD; HEAD = free_block]. *)
Definition push_free (s : state) (free_block : Z) : state :=
  let s1 := set_memory s (set_next (memory s) free_block (HEAD s)) in
  set_HEAD s1 free_block.

(** Lines 262-263 of [tufree]: the two messages printed before [abort()]. *)
Definition report_corruption (s : state) (block_header : Z) : state :=
  print (print s PrintCorruption) (PrintCorruptionAt block_header).

(** [tufree], lines 248-266.  The sentinel is read through
    [block_header]; when that pointer is null (a [ptr] of 16) the read is
    a null dereference. *)
Definition tufree (fuel : nat) (s : state) (ptr : Z) : outcome state :=
  if ptr =? NULL then Done s
  else
    let block_header := wrap64 (ptr - sizeof_free_block) in
    if block_header =? NULL then Fault
    else if load32 (memory s) block_header =? MAGIC then
      let free_block := block_header in
      r <- coalesce fuel (push_free s free_block) free_block ;;
      Done (fst r)
    else
      Abort (report_corruption s block_header).

(** [turealloc], lines 220-241.  [block->size] is read through [block];
    when that pointer is null (a [ptr] of 16) the read is a null
    dereference. *)
Definition turealloc (fuel : nat) (s : state) (ptr new_size : Z) : outcome (state * Z) :=
  if ptr =? NULL then tumalloc fuel s new_size
  else
    let block := wrap64 (ptr - sizeof_free_block) in
    if block =? NULL then Fault
    else if new_size =? get_size (memory s) block then Done (s, ptr)
    else if new_size <? get_size (memory s) block then
      let '(s1, _) := split s block (to_int32 new_size) in
      Done (s1, ptr)
    else
      r <- tumalloc fuel s new_size ;;
      let '(s1, new_ptr) := r in
      if negb (new_ptr =? NULL) then
        let old_size := get_size (memory s1) block in
        let s2 := print s1 (PrintRealloc ptr old_size) in
        let s3 := set_memory s2 (memcpy (memory s2) new_ptr ptr old_size) in
        s4 <- tufree fuel s3 ptr ;;
        Done (s4, new_ptr)
      else Done (s1, new_ptr).

(** ** Observations on the free list *)

(** The blocks reached from [curr] by following [next], in order. *)
Fixpoint chain (fuel : nat) (m : mem) (curr : Z) : list Z :=
  match fuel with
  | O => []
  | S k => if curr =? NULL then [] else curr :: chain k m (get_next m curr)
  end.

Definition free_list (fuel : nat) (s : state) : list Z :=
  chain fuel (memory s) (HEAD s).

End Alloc.

(** ** Well-formed free lists *)

Module FreeList.
Import Machine Mem Alloc.

(** [list_at m h L]: following [next] from [h] in memory [m] visits
    exactly the blocks of [L], in order, and then reaches null. *)
Inductive list_at (m : mem) : Z -> list Z -> Prop :=
| list_at_nil : list_at m NULL []
| list_at_cons (h : Z) (L : list Z) :
    h <> NULL -> list_at m (get_next m h) L -> list_at m h (h :: L).

(** The headers of distinct blocks of [L] do not overlap. *)
Definition separated (L : list Z) : Prop :=
  forall a b, In a L -> In b L -> a <> b ->
    a + sizeof_free_block <= b \/ b + sizeof_free_block <= a.

(** The address right behind a block's payload, as [find_prev],
    [find_next] and [coalesce] compute it. *)
Definition block_end (m : mem) (c : Z) : Z :=
  wrap64 (c + get_size m c + sizeof_free_block).

(** [s'] differs from [s] in memory and [HEAD] at most: the break, the
    count of [sbrk] calls and the output are the same. *)
Definition same_os (s s' : state) : Prop :=
  brk s' = brk s /\ brk_limit s' = brk_limit s /\
  sbrk_calls s' = sbrk_calls s /\ stdout s' = stdout s.

End FreeList.

(** ** Concrete process states used in the examples *)

Module Scenarios.
Import Machine Mem Alloc.

Definition zero_memory : mem := fun _ => 0.

(** A free block of 64 bytes at 4096 whose [next] is 8192, at the head of
    the free list. *)
Definition split_demo_state : state :=
  mkState (set_next (set_size zero_memory 4096 64) 4096 8192) 4096 4096 65536 1048576 0 [].

(** A fresh process: nothing allocated yet, the break at 4096. *)
Definition fresh_heap : state :=
  mkState zero_memory NULL 4096 4096 1048576 0 [].

(** One free block of 64 bytes at 4096 on the free list; the break is at
    8192. *)
Definition one_free_block : state :=
  mkState (set_next (set_size zero_memory 4096 64) 4096 NULL) 4096 4096 8192 1048576 0 [].

(** One free block of 32 MiB at 4096 on the free list. *)
Definition big_free_block : state :=
  mkState (set_next (set_size zero_memory 4096 33554432) 4096 NULL)
          4096 4096 67108864 1073741824 0 [].

(** An allocated block at 4096 whose header starts with the sentinel; the
    free list is empty. *)
Definition stamped_block : state :=
  mkState (store32 zero_memory 4096 MAGIC) NULL 4096 8192 1048576 0 [].

(** Two allocated blocks, [A] at 4096 and [B] right behind it, both with
    the sentinel at the start of the header (so both size fields read
    19088743). *)
Definition block_A : Z := 4096.
Definition block_B : Z := block_A + sizeof_free_block + MAGIC.
Definition two_adjacent : state :=
  mkState (store32 (store32 zero_memory block_A MAGIC) block_B MAGIC)
          NULL 4096 67108864 1073741824 0 [].

(** An allocated block of 64 bytes at 4096, as the growth path of
    [tumalloc] leaves it, with payload bytes [1, 2, 3, ...]; the free
    list is empty. *)
Definition shrink_state : state :=
  mkState (fun x => if in_range 4112 64 x then x - 4111
                    else set_next (set_size zero_memory 4096 64) 4096 NULL x)
          NULL 4096 8192 1048576 0 [].

(** A break that is not a multiple of 16, as after [sbrk(33)] from
    4096. *)
Definition misaligned_break : state :=
  mkState zero_memory NULL 4096 4129 1048576 0 [].

(** Two free blocks on the free list: 64 bytes at 4096, then 32 bytes at
    8192.  The first ends at 4176, the second at 8240. *)
Definition two_free_blocks : state :=
  mkState (set_next (set_size (set_next (set_size zero_memory 4096 64) 4096 8192)
                              8192 32) 8192 NULL)
          4096 4096 16384 1048576 0 [].

(** The same free list when the system grants no more memory. *)
Definition two_free_blocks_no_room : state :=
  mkState (memory two_free_blocks) 4096 4096 16384 16384 0 [].

(** An allocated block at 4096 carrying the sentinel (its size field
    reads 19088743); the free block of 64 bytes right behind it is the
    only entry of the free list. *)
Definition block_C : Z := 4096 + sizeof_free_block + MAGIC.
Definition before_free_head : state :=
  mkState (set_next (set_size (store32 zero_memory 4096 MAGIC) block_C 64)
                    block_C NULL)
          block_C 4096 67108864 1073741824 0 [].

(** An allocated block at 4096 carrying the sentinel; the free block of
    4064 bytes at 16, which ends where it starts, is the only entry of
    the free list. *)
Definition after_free_block : state :=
  mkState (set_next (set_size (store32 zero_memory 4096 MAGIC) 16 4064) 16 NULL)
          16 16 67108864 1073741824 0 [].


(** A fresh process whose memory is not zero: every byte reads 255. *)
Definition dirty_heap : state :=
  mkState (fun _ => 255) NULL 4096 4096 1048576 0 [].

(** One free block of 64 bytes at 4096 on the free list, the break at
    8192 and a gibibyte of room. *)
Definition small_list_large_heap : state :=
  mkState (set_next (set_size zero_memory 4096 64) 4096 NULL)
          4096 4096 8192 1073741824 0 [].

End Scenarios.

(** * Properties *)

(** ** Machine integers *)

Module MachineFacts.
Import Machine.

Lemma wrap64_range x : 0 <= wrap64 x < 2 ^ 64.
Proof. unfold wrap64. apply Z.mod_pos_bound. lia. Qed.

Lemma wrap64_small x : 0 <= x < 2 ^ 64 -> wrap64 x = x.
Proof. intros H. unfold wrap64. apply Z.mod_small. exact H. Qed.

Lemma to_int32_small x : 0 <= x < 2 ^ 31 -> to_int32 x = x.
Proof.
  intros H. unfold to_int32.
  rewrite Z.mod_small by lia. lia.
Qed.

Lemma to_int64_small x : 0 <= x < 2 ^ 63 -> to_int64 x = x.
Proof.
  intros H. unfold to_int64.
  rewrite Z.mod_small by lia. lia.
Qed.

(** Masking with [~15] (as a [uintptr_t]) clears the low four bits. *)
Lemma land_align16 x :
  0 <= x < 2 ^ 64 -> Z.land x (wrap64 (Z.lnot 15)) = 16 * (x / 16).
Proof.
  intros Hx.
  change (wrap64 (Z.lnot 15)) with (Z.shiftl (Z.ones 60) 4).
  replace (16 * (x / 16)) with (Z.shiftl (Z.shiftr x 4) 4)
    by (rewrite Z.shiftl_mul_pow2, Z.shiftr_div_pow2 by lia;
        change (2 ^ 4) with 16; ring).
  apply Z.bits_inj'. intros n Hn. rewrite Z.land_spec.
  destruct (Z.ltb_spec n 4) as [Hlt|Hge].
  - rewrite !Z.shiftl_spec_low by lia. apply andb_false_r.
  - rewrite !Z.shiftl_spec by lia.
    rewrite Z.shiftr_spec by lia.
    replace (n - 4 + 4) with n by lia.
    rewrite Z.testbit_ones_nonneg by lia.
    destruct (Z.ltb_spec (n - 4) 60) as [Hin|Hout].
    + apply andb_true_r.
    + rewrite andb_false_r. symmetry.
      destruct (Z.eq_dec x 0) as [->|Hnz]; [apply Z.bits_0|].
      apply Z.bits_above_log2; [lia|].
      apply Z.lt_le_trans with 64; [|lia].
      apply Z.log2_lt_pow2; lia.
Qed.

End MachineFacts.

(** ** Loads and stores *)

Module MemFacts.
Import Mem.

Lemma in_range_true a n x : in_range a n x = true <-> a <= x < a + n.
Proof. unfold in_range. rewrite andb_true_iff, Z.leb_le, Z.ltb_lt. tauto. Qed.

Lemma in_range_false a n x : in_range a n x = false <-> (x < a \/ a + n <= x).
Proof.
  unfold in_range. rewrite andb_false_iff, Z.leb_gt, Z.ltb_ge. tauto.
Qed.

Lemma byte_at_range m a : 0 <= byte_at m a < 256.
Proof. unfold byte_at. apply Z.mod_pos_bound. lia. Qed.

Lemma load_le_range n m a : 0 <= load_le n m a < 256 ^ Z.of_nat n.
Proof.
  revert a. induction n as [|k IH]; intros a.
  - simpl. lia.
  - cbn [load_le]. rewrite Nat2Z.inj_succ, Z.pow_succ_r by lia.
    pose proof (byte_at_range m a). specialize (IH (a + 1)). lia.
Qed.

Lemma load64_range m a : 0 <= load64 m a < 2 ^ 64.
Proof. apply (load_le_range 8). Qed.

Lemma load32_range m a : 0 <= load32 m a < 2 ^ 32.
Proof. apply (load_le_range 4). Qed.

(** A load only depends on the bytes it covers. *)
Lemma load_le_ext n m1 m2 a :
  (forall x, a <= x < a + Z.of_nat n -> byte_at m1 x = byte_at m2 x) ->
  load_le n m1 a = load_le n m2 a.
Proof.
  revert a. induction n as [|k IH]; intros a H; [reflexivity|].
  cbn [load_le]. rewrite (H a) by lia.
  rewrite (IH (a + 1)); [reflexivity|].
  intros x Hx. apply H. lia.
Qed.

Lemma byte_at_store_le_in n m a v x :
  a <= x < a + n ->
  byte_at (store_le n m a v) x = (v / 256 ^ (x - a)) mod 256.
Proof.
  intros H. unfold byte_at, store_le.
  apply in_range_true in H. rewrite H.
  apply Z.mod_mod. lia.
Qed.

Lemma store_le_out n m a v x :
  x < a \/ a + n <= x -> store_le n m a v x = m x.
Proof.
  intros H. unfold store_le. apply in_range_false in H. now rewrite H.
Qed.

Lemma byte_at_store_le_out n m a v x :
  x < a \/ a + n <= x -> byte_at (store_le n m a v) x = byte_at m x.
Proof. intros H. unfold byte_at. now rewrite store_le_out. Qed.

(** Reading back a sub-range of a stored value. *)
Lemma load_le_store_le_sub k n m a v j :
  0 <= j -> j + Z.of_nat k <= n ->
  load_le k (store_le n m a v) (a + j) = (v / 256 ^ j) mod 256 ^ Z.of_nat k.
Proof.
  revert j. induction k as [|k IH]; intros j Hj Hn.
  - simpl. now rewrite Z.mod_1_r.
  - cbn [load_le]. rewrite Nat2Z.inj_succ in *.
    rewrite byte_at_store_le_in by lia.
    replace (a + j + 1) with (a + (j + 1)) by lia.
    rewrite IH by lia.
    replace (a + j - a) with j by lia.
    rewrite Z.pow_succ_r by lia.
    rewrite (Z.pow_add_r 256 j 1) by lia.
    rewrite <- Z.div_div by lia.
    change (256 ^ 1) with 256.
    rewrite (Z.rem_mul_r (v / 256 ^ j) 256 (256 ^ Z.of_nat k)) by lia.
    reflexivity.
Qed.

Lemma load_le_store_le_same k m a v :
  load_le k (store_le (Z.of_nat k) m a v) a = v mod 256 ^ Z.of_nat k.
Proof.
  pose proof (load_le_store_le_sub k (Z.of_nat k) m a v 0) as H.
  rewrite Z.add_0_r, Z.pow_0_r, Z.div_1_r in H. apply H; lia.
Qed.

Lemma load_le_store_le_disjoint k n m a v b :
  b + Z.of_nat k <= a \/ a + n <= b ->
  load_le k (store_le n m a v) b = load_le k m b.
Proof.
  intros H. apply load_le_ext. intros x Hx.
  apply byte_at_store_le_out. lia.
Qed.

Lemma load_le_split n k m a :
  load_le (n + k) m a =
  load_le n m a + 256 ^ Z.of_nat n * load_le k m (a + Z.of_nat n).
Proof.
  revert a. induction n as [|n IH]; intros a.
  - simpl. rewrite Z.add_0_r. destruct (load_le k m a); reflexivity.
  - cbn [Nat.add load_le]. rewrite IH.
    rewrite Nat2Z.inj_succ, Z.pow_succ_r by lia.
    replace (a + 1 + Z.of_nat n) with (a + Z.succ (Z.of_nat n)) by lia.
    ring.
Qed.

Lemma load64_store64_same m a v : load64 (store64 m a v) a = v mod 2 ^ 64.
Proof. apply (load_le_store_le_same 8). Qed.

Lemma load32_store32_same m a v : load32 (store32 m a v) a = v mod 2 ^ 32.
Proof. apply (load_le_store_le_same 4). Qed.

Lemma load64_store64_disjoint m a v b :
  b + 8 <= a \/ a + 8 <= b -> load64 (store64 m a v) b = load64 m b.
Proof. intros H. apply (load_le_store_le_disjoint 8 8). lia. Qed.

Lemma load32_store64_disjoint m a v b :
  b + 4 <= a \/ a + 8 <= b -> load32 (store64 m a v) b = load32 m b.
Proof. intros H. apply (load_le_store_le_disjoint 4 8). lia. Qed.

Lemma load64_store32_disjoint m a v b :
  b + 8 <= a \/ a + 4 <= b -> load64 (store32 m a v) b = load64 m b.
Proof. intros H. apply (load_le_store_le_disjoint 8 4). lia. Qed.

(** A 4-byte store over the start of an 8-byte field replaces its low
    half and keeps its high half. *)
Lemma load64_store32_low m a v :
  load64 (store32 m a v) a = v mod 2 ^ 32 + 2 ^ 32 * (load64 m a / 2 ^ 32).
Proof.
  unfold load64. change 8%nat with (4 + 4)%nat.
  rewrite (load_le_split 4 4 (store32 m a v) a).
  fold load32. rewrite load32_store32_same.
  unfold store32. rewrite (load_le_store_le_disjoint 4 4) by (simpl; lia).
  rewrite (load_le_split 4 4 m a).
  change (256 ^ Z.of_nat 4) with (2 ^ 32).
  pose proof (load_le_range 4 m a) as Hlo.
  change (256 ^ Z.of_nat 4) with (2 ^ 32) in Hlo.
  rewrite (Z.mul_comm (2 ^ 32) (load_le 4 m (a + Z.of_nat 4))).
  rewrite Z.div_add by lia.
  rewrite (Z.div_small (load_le 4 m a)) by lia.
  simpl Z.of_nat. ring.
Qed.

Lemma memset_in m p c n x : p <= x < p + n -> memset m p c n x = c mod 256.
Proof. intros H. unfold memset. apply in_range_true in H. now rewrite H. Qed.

Lemma memset_out m p c n x : x < p \/ p + n <= x -> memset m p c n x = m x.
Proof. intros H. unfold memset. apply in_range_false in H. now rewrite H. Qed.

End MemFacts.

(** ** Header fields *)

Module AllocFacts.
Import Machine Mem Alloc MachineFacts MemFacts.

Ltac fields :=
  unfold get_size, get_next, set_size, set_next, off_size, off_next,
    sizeof_free_block, NULL in *.

Ltac mem_step :=
  first
    [ rewrite load64_store64_same
    | rewrite load32_store32_same
    | rewrite load64_store64_disjoint by lia
    | rewrite load32_store64_disjoint by lia
    | rewrite load64_store32_disjoint by lia ].

Ltac mem_simpl := fields; repeat mem_step.

Lemma get_size_range m b : 0 <= get_size m b < 2 ^ 64.
Proof. apply load64_range. Qed.

Lemma get_next_range m b : 0 <= get_next m b < 2 ^ 64.
Proof. apply load64_range. Qed.

Lemma set_memory_memory s m : memory (set_memory s m) = m.
Proof. reflexivity. Qed.

(** [split] touches memory only: the free-list head, the break and the
    output are the caller's. *)
Lemma split_frame s block size :
  let s' := fst (split s block size) in
  HEAD s' = HEAD s /\ brk s' = brk s /\ brk_limit s' = brk_limit s /\
  sbrk_calls s' = sbrk_calls s /\ stdout s' = stdout s.
Proof.
  unfold split. destruct (_ <? _); cbn; repeat split; reflexivity.
Qed.

Lemma split_result s block size : snd (split s block size) = NULL \/ snd (split s block size) = block.
Proof. unfold split. destruct (_ <? _); cbn; auto. Qed.

(** *** What [split] writes *)

Lemma split_threshold size :
  0 <= size < 2 ^ 31 ->
  wrap64 size = size /\
  wrap64 (wrap64 size + sizeof_free_block) = size + sizeof_free_block.
Proof.
  intros H. assert (Hw : wrap64 size = size) by (apply wrap64_small; lia).
  split; [exact Hw|]. rewrite Hw. apply wrap64_small.
  unfold sizeof_free_block. lia.
Qed.

Lemma split_refused s block size :
  0 <= size < 2 ^ 31 ->
  get_size (memory s) block < size + sizeof_free_block ->
  split s block size = (s, NULL).
Proof.
  intros Hsize Hlt. unfold split.
  destruct (split_threshold size Hsize) as [_ ->].
  apply Z.ltb_lt in Hlt. rewrite Hlt. reflexivity.
Qed.

Lemma split_done s block size :
  0 <= size < 2 ^ 31 ->
  0 <= block ->
  block + sizeof_free_block + get_size (memory s) block <= 2 ^ 64 ->
  size + sizeof_free_block <= get_size (memory s) block ->
  let old_size := get_size (memory s) block in
  let new_block := block + size + sizeof_free_block in
  let s' := fst (split s block size) in
  snd (split s block size) = block /\
  get_size (memory s') block = size /\
  get_size (memory s') new_block = old_size - size - sizeof_free_block /\
  get_next (memory s') new_block = get_next (memory s) block /\
  (forall x,
     ~ (block <= x < block + 8) ->
     ~ (new_block <= x < new_block + sizeof_free_block) ->
     memory s' x = memory s x).
Proof.
  intros Hsize Hblock Hfit Hge old_size new_block s'.
  pose proof (get_size_range (memory s) block) as Hsz.
  destruct (split_threshold size Hsize) as [Hw Hthr].
  subst s'. unfold split. rewrite Hthr, Hw.
  fold old_size in Hge, Hfit, Hsz |- *. unfold sizeof_free_block in *.
  apply Z.ltb_ge in Hge. rewrite Hge. apply Z.ltb_ge in Hge.
  cbn [fst snd].
  assert (Hnb : wrap64 (block + size + 16) = new_block).
  { apply wrap64_small. subst new_block. lia. }
  rewrite Hnb, set_memory_memory.
  rewrite (wrap64_small (old_size - size - 16)) by lia.
  assert (Hnx : get_next (set_size (memory s) new_block (old_size - size - 16)) block
                = get_next (memory s) block).
  { subst new_block. mem_simpl. reflexivity. }
  rewrite Hnx.
  split; [reflexivity|]. split; [|split; [|split]].
  - mem_simpl. apply Z.mod_small. lia.
  - subst new_block. mem_simpl. apply Z.mod_small. lia.
  - subst new_block. mem_simpl. apply Z.mod_small.
    apply (get_next_range (memory s) block).
  - intros x Hx1 Hx2. subst new_block. fields. unfold store64.
    rewrite !store_le_out by lia. reflexivity.
Qed.

(** *** Outcomes of the list walks: they return or run out of fuel *)

Lemma find_prev_loop_quiet fuel m curr block :
  returns_or_times_out (find_prev_loop fuel m curr block).
Proof.
  revert curr. induction fuel as [|k IH]; intros curr; cbn; [exact I|].
  destruct (curr =? NULL); [exact I|].
  destruct (_ =? block); [exact I | apply IH].
Qed.

Lemma find_next_loop_quiet fuel m curr block_end :
  returns_or_times_out (find_next_loop fuel m curr block_end).
Proof.
  revert curr. induction fuel as [|k IH]; intros curr; cbn; [exact I|].
  destruct (curr =? NULL); [exact I|].
  destruct (curr =? block_end); [exact I | apply IH].
Qed.

Lemma coalesce_quiet fuel s block :
  returns_or_times_out (coalesce fuel s block).
Proof.
  unfold coalesce. destruct (block =? NULL); [exact I|].
  unfold find_prev, find_next.
  pose proof (find_prev_loop_quiet fuel (memory s) (HEAD s) block) as Hp.
  destruct (find_prev_loop fuel (memory s) (HEAD s) block) as [prev| | |];
    cbn in *; try tauto.
  match goal with
  | |- context [find_next_loop ?f ?m ?c ?e] =>
      pose proof (find_next_loop_quiet f m c e) as Hn;
      destruct (find_next_loop f m c e) as [next| | |]
  end; cbn in *; try tauto.
  destruct (merge_prev (memory s) prev block). exact I.
Qed.

(** [coalesce] only rewrites memory. *)
Lemma coalesce_frame fuel s block s' b' :
  coalesce fuel s block = Done (s', b') ->
  HEAD s' = HEAD s /\ brk s' = brk s /\ brk_limit s' = brk_limit s /\
  sbrk_calls s' = sbrk_calls s /\ stdout s' = stdout s.
Proof.
  unfold coalesce. destruct (block =? NULL).
  - intros H. inversion H. subst. repeat split; reflexivity.
  - destruct (find_prev fuel s block) as [prev| | |]; cbn; try discriminate.
    destruct (find_next fuel s block) as [next| | |]; cbn; try discriminate.
    destruct (merge_prev (memory s) prev block) as [m1 block1].
    intros H. inversion H. subst. cbn. repeat split; reflexivity.
Qed.

(** *** Requests made to the operating system *)

(** Whether [sbrk] grants a growth request only depends on the limit. *)
Lemma sbrk_grows_iff s inc :
  0 <= inc -> 0 <= brk s ->
  (0 <=? brk s + inc) && (brk s + inc <=? brk_limit s)
  && ((brk s <=? brk s + inc) || (brk_start s <=? brk s + inc))
  = (brk s + inc <=? brk_limit s).
Proof.
  intros Hinc Hbrk.
  rewrite (proj2 (Z.leb_le 0 (brk s + inc))) by lia.
  rewrite (proj2 (Z.leb_le (brk s) (brk s + inc))) by lia.
  cbn [andb orb]. apply andb_true_r.
Qed.

Lemma do_alloc_calls s size :
  sbrk_calls (fst (do_alloc s size)) = S (sbrk_calls s).
Proof.
  unfold do_alloc, sbrk.
  destruct (_ && _); cbv zeta;
    repeat match goal with
           | |- context [if ?c then _ else _] => destruct c
           end; reflexivity.
Qed.

Lemma remove_loop_calls fuel s curr block s' :
  remove_loop fuel s curr block = Done s' -> sbrk_calls s' = sbrk_calls s.
Proof.
  revert curr. induction fuel as [|k IH]; intros curr; cbn; [discriminate|].
  destruct (curr =? NULL); [intros H; inversion H; reflexivity|].
  destruct (_ =? block); [intros H; inversion H; reflexivity|].
  apply IH.
Qed.

Lemma remove_free_block_calls fuel s block s' :
  remove_free_block fuel s block = Done s' -> sbrk_calls s' = sbrk_calls s.
Proof.
  unfold remove_free_block. destruct (_ =? block).
  - intros H. inversion H. reflexivity.
  - apply remove_loop_calls.
Qed.

Lemma take_block_calls fuel s curr size s' p :
  take_block fuel s curr size = Done (s', p) -> sbrk_calls s' = sbrk_calls s.
Proof.
  unfold take_block.
  pose proof (split_frame s curr (to_int32 (wrap64 (size + sizeof_free_block)))) as Hf.
  destruct (split s curr _) as [s1 sp]. cbn in Hf.
  destruct Hf as (_ & _ & _ & Hc & _).
  destruct (sp =? NULL); [intros H; inversion H; subst; exact Hc|].
  destruct (remove_free_block fuel s1 curr) as [s2| | |] eqn:E; cbn; try discriminate.
  intros H. inversion H. subst. cbn.
  rewrite (remove_free_block_calls _ _ _ _ E). exact Hc.
Qed.

(** The scan of [tumalloc] either runs off the end of the list or leaves
    early with a null result; it never asks for memory. *)
Lemma tumalloc_scan_result fuel s curr size s' r :
  tumalloc_scan fuel s curr size = Done (s', r) ->
  sbrk_calls s' = sbrk_calls s /\ (r = None \/ r = Some NULL).
Proof.
  revert s curr. induction fuel as [|k IH]; intros s curr; [discriminate|].
  cbn [tumalloc_scan].
  destruct (curr =? NULL); [intros H; inversion H; auto|].
  destruct (size <=? _); [|apply IH].
  destruct (take_block (S k) s curr size) as [[s1 sp]| | |] eqn:E; cbn;
    try discriminate.
  apply take_block_calls in E.
  destruct (sp =? NULL).
  - intros H. inversion H. subst. auto.
  - intros H. apply IH in H. destruct H as [H1 H2]. split; [congruence|exact H2].
Qed.

(** Every call of [tumalloc] that returns a non-null pointer has called
    [sbrk]: no request is ever served from the free list alone. *)
Lemma tumalloc_always_grows fuel s size s' p :
  tumalloc fuel s size = Done (s', p) ->
  p <> NULL ->
  sbrk_calls s' = S (sbrk_calls s).
Proof.
  unfold tumalloc. destruct (HEAD s =? NULL).
  - intros H _. inversion H as [H1].
    rewrite <- (do_alloc_calls s (wrap64 (size + sizeof_free_block))).
    rewrite H1. reflexivity.
  - destruct (tumalloc_scan fuel s (HEAD s) size) as [[s1 r]| | |] eqn:E; cbn;
      try discriminate.
    apply tumalloc_scan_result in E. destruct E as [Hc [Hr|Hr]]; subst r.
    + pose proof (do_alloc_calls s1 (wrap64 (size + sizeof_free_block))) as Hd.
      destruct (do_alloc s1 _) as [s2 ptr]. cbn in Hd.
      destruct (ptr =? NULL); [discriminate|].
      intros H _. inversion H. subst. cbn. congruence.
    + intros H Hp. inversion H. subst. congruence.
Qed.

(** *** The sentinel check of [tufree] *)

Lemma tufree_abort_sentinel fuel s ptr a :
  tufree fuel s ptr = Abort a ->
  load32 (memory s) (wrap64 (ptr - sizeof_free_block)) <> MAGIC.
Proof.
  unfold tufree. destruct (ptr =? NULL); [discriminate|].
  destruct (wrap64 (ptr - sizeof_free_block) =? NULL); [discriminate|].
  destruct (load32 _ _ =? MAGIC) eqn:E.
  - pose proof (coalesce_quiet fuel
      (push_free s (wrap64 (ptr - sizeof_free_block)))
      (wrap64 (ptr - sizeof_free_block))) as Hq.
    destruct (coalesce _ _ _); cbn in *; try discriminate; tauto.
  - intros _. apply Z.eqb_neq. exact E.
Qed.

Lemma merge_prev_keeps_sentinel m prev block :
  prev = NULL \/ prev + sizeof_free_block <= block \/ block + 4 <= prev ->
  load32 (fst (merge_prev m prev block)) block = load32 m block.
Proof.
  intros H. unfold merge_prev.
  destruct (prev =? NULL) eqn:E; [reflexivity|].
  apply Z.eqb_neq in E.
  destruct H as [H|H]; [contradiction|].
  destruct (_ =? block); [|reflexivity].
  match goal with |- context [if ?c then _ else _] => destruct c end;
    cbn [fst]; mem_simpl; reflexivity.
Qed.

Lemma push_free_keeps_sentinel s block :
  load32 (memory (push_free s block)) block = load32 (memory s) block.
Proof.
  unfold push_free. cbn [memory set_HEAD set_memory]. mem_simpl. reflexivity.
Qed.

(** A block whose [next] points back at itself keeps [find_prev] walking
    for ever. *)
Lemma find_prev_loop_self_cycle fuel m curr block :
  curr <> NULL ->
  get_next m curr = curr ->
  wrap64 (curr + get_size m curr + sizeof_free_block) <> block ->
  find_prev_loop fuel m curr block = Timeout.
Proof.
  intros Hnn Hself Hend. induction fuel as [|k IH]; [reflexivity|].
  cbn [find_prev_loop].
  rewrite (proj2 (Z.eqb_neq _ _) Hnn), (proj2 (Z.eqb_neq _ _) Hend), Hself.
  exact IH.
Qed.

Lemma free_list_empty fuel s : HEAD s = NULL -> free_list fuel s = [].
Proof.
  intros H. unfold free_list. rewrite H. destruct fuel; reflexivity.
Qed.

End AllocFacts.

Import Machine Mem Alloc Scenarios MachineFacts MemFacts AllocFacts.

(** ** The Splitter *)

(** C7. [split candidate requested_size] returns null and leaves the state
    as it was exactly when the candidate's size is below
    [requested_size + header_size]; otherwise it returns the candidate,
    whose size field now holds the requested size, and a new header at
    [candidate + requested_size + header_size] holds the remainder
    [old size - requested_size - header_size] and the candidate's old
    [next] link; no other byte of memory changes.  The requested size is
    a non-negative [int] and the candidate is a non-null block lying
    inside the 64-bit address space. *)
Theorem split_spec (s : state) (block size : Z) :
  0 <= size < 2 ^ 31 ->
  0 < block ->
  block + sizeof_free_block + get_size (memory s) block <= 2 ^ 64 ->
  let old_size := get_size (memory s) block in
  let old_next := get_next (memory s) block in
  let new_block := block + size + sizeof_free_block in
  let s' := fst (split s block size) in
  (old_size < size + sizeof_free_block <-> split s block size = (s, NULL)) /\
  (size + sizeof_free_block <= old_size ->
     snd (split s block size) = block /\
     get_size (memory s') block = size /\
     get_size (memory s') new_block = old_size - size - sizeof_free_block /\
     get_next (memory s') new_block = old_next /\
     (forall x,
        ~ (block <= x < block + 8) ->
        ~ (new_block <= x < new_block + sizeof_free_block) ->
        memory s' x = memory s x)).
Proof.
  intros Hsize Hblock Hfit old_size old_next new_block s'.
  split.
  - split.
    + apply split_refused. exact Hsize.
    + intros Heq.
      destruct (Z.lt_ge_cases old_size (size + sizeof_free_block)) as [Hlt|Hge];
        [exact Hlt|].
      destruct (split_done s block size Hsize ltac:(lia) Hfit Hge) as [Hret _].
      rewrite Heq in Hret. cbn in Hret. unfold NULL in Hret. lia.
  - intros Hge. apply (split_done s block size Hsize ltac:(lia) Hfit Hge).
Qed.

Lemma split_spec_witness :
  get_size (memory (fst (split split_demo_state 4096 16))) 4096 = 16 /\
  get_size (memory (fst (split split_demo_state 4096 16))) 4128 = 32 /\
  get_next (memory (fst (split split_demo_state 4096 16))) 4128 = 8192.
Proof.
  assert (H1 : 0 <= 16 < 2 ^ 31) by lia.
  assert (H2 : 0 < 4096) by lia.
  assert (H3 : 4096 + sizeof_free_block + get_size (memory split_demo_state) 4096 <= 2 ^ 64)
    by (vm_compute; discriminate).
  destruct (split_spec split_demo_state 4096 16 H1 H2 H3) as [_ Hok].
  assert (H4 : 16 + sizeof_free_block <= get_size (memory split_demo_state) 4096)
    by (vm_compute; discriminate).
  destruct (Hok H4) as (_ & Ha & Hb & Hc & _).
  split; [exact Ha | split; [exact Hb | exact Hc]].
Defined.

(** ** Allocation *)

(** C1. Run of [tumalloc] on a free list whose first block fits.  The
    list holds one free block of 64 bytes at 4096 and 16 bytes are
    requested: the block is split, unlinked and stamped, but the loop goes
    on, [sbrk] is called, and the pointer returned is the payload of the
    freshly grown block at 8192, not that of the fitting block. *)
Theorem tumalloc_first_fit_falls_through :
  match tumalloc 4 one_free_block 16 with
  | Done (s', p) =>
      p = 8192 + sizeof_free_block /\
      p <> 4096 + sizeof_free_block /\
      sbrk_calls s' = 1%nat /\
      brk s' = 8192 + 48 /\
      load32 (memory s') 4096 = MAGIC /\
      get_size (memory s') 8192 = 16 /\
      free_list 4 s' = []
  | _ => False
  end.
Proof.
  vm_compute.
  split; [reflexivity|]. split; [discriminate|].
  split; [reflexivity|]. split; [reflexivity|].
  split; [reflexivity|]. split; reflexivity.
Qed.

(** C2. Run of [Release(Allocate(64))] on a fresh process.  With an empty
    free list [tumalloc] hands out the address [do_alloc] gave it, without
    writing a header; [tufree] then finds no sentinel sixteen bytes below
    it, prints the two corruption messages and aborts, so the freed block
    never reaches the free list. *)
Theorem release_after_allocate_aborts :
  match tumalloc 1 fresh_heap 64 with
  | Done (s1, p) =>
      p = 4096 /\
      sbrk_calls s1 = 1%nat /\
      load32 (memory s1) (p - sizeof_free_block) = 0 /\
      match tufree 1 s1 p with
      | Abort a => stdout a = [PrintCorruption; PrintCorruptionAt 4080]
      | _ => False
      end
  | _ => False
  end.
Proof.
  vm_compute.
  split; [reflexivity|]. split; [reflexivity|]. split; reflexivity.
Qed.

(** Even after a release that succeeds, the freed block does not serve
    the next request: the block at 4096 carries the sentinel, [tufree]
    puts it on the free list, and [tumalloc 16] then takes it off the list
    again, calls [sbrk] all the same and returns the grown block. *)
Lemma released_block_is_not_reused :
  match tufree 4 stamped_block 4112 with
  | Done s1 =>
      free_list 4 s1 = [4096] /\
      match tumalloc 4 s1 16 with
      | Done (s2, p) =>
          p = 8192 + sizeof_free_block /\
          sbrk_calls s2 = S (sbrk_calls s1) /\
          free_list 4 s2 = []
      | _ => False
      end
  | _ => False
  end.
Proof.
  vm_compute. split; [reflexivity|]. split; [reflexivity|]. split; reflexivity.
Qed.

(** C10, as stated, at a request of 19088743 bytes (0x01234567): the
    block taken from the free list carries the sentinel and its size field
    still reads the requested size. *)
Lemma stamped_size_equals_request :
  match take_block 1 big_free_block 4096 MAGIC with
  | Done (s', p) =>
      p = 4096 /\
      load32 (memory s') p = MAGIC /\
      get_size (memory s') p = MAGIC
  | _ => False
  end.
Proof.
  vm_compute. split; [reflexivity|]. split; reflexivity.
Qed.

(** C10, amended.  When [tumalloc] takes a block from the free list
    (lines 166-179), the size is written first and the 4-byte sentinel is
    then written over the start of the size field: the header's first four
    bytes read 0x01234567 and the size field reads the requested size with
    its low 32 bits replaced by the sentinel, which is the requested size
    only when [size mod 2^32] is 0x01234567.  When the block is the head
    of the free list the step needs no fuel. *)
Theorem take_block_stamps_over_size (fuel : nat) (s : state) (curr size : Z) :
  0 <= size < 2 ^ 64 ->
  curr <> NULL ->
  snd (split s curr (to_int32 (wrap64 (size + sizeof_free_block)))) <> NULL ->
  (HEAD s = curr -> exists s', take_block fuel s curr size = Done (s', curr)) /\
  (forall s' p,
     take_block fuel s curr size = Done (s', p) ->
     p = curr /\
     load32 (memory s') curr = MAGIC /\
     get_size (memory s') curr = MAGIC + 2 ^ 32 * (size / 2 ^ 32) /\
     (get_size (memory s') curr = size <-> size mod 2 ^ 32 = MAGIC)).
Proof.
  intros Hsize Hcurr Hsplit. unfold take_block.
  pose proof (split_result s curr (to_int32 (wrap64 (size + sizeof_free_block)))) as Hr.
  pose proof (split_frame s curr (to_int32 (wrap64 (size + sizeof_free_block)))) as Hf.
  destruct (split s curr _) as [s1 sp]. cbn in Hr, Hsplit, Hf.
  destruct Hr as [Hr|Hr]; [contradiction|]. subst sp.
  destruct (curr =? NULL) eqn:E; [apply Z.eqb_eq in E; contradiction|].
  split.
  - intros Hhead. unfold remove_free_block.
    destruct Hf as (Hh & _). rewrite Hh, Hhead, Z.eqb_refl. cbn. eauto.
  - intros s' p.
    destruct (remove_free_block fuel s1 curr) as [s2| | |];
      cbv beta iota delta [bind]; try discriminate.
    intros H. inversion H. subst s' p. clear H.
    rewrite set_memory_memory.
    split; [reflexivity|]. unfold get_size, set_size, off_size.
    rewrite !Z.add_0_r.
    assert (Hlo : load32 (store32 (store64 (memory s2) curr size) curr MAGIC) curr = MAGIC).
    { rewrite load32_store32_same. reflexivity. }
    assert (Hfull : load64 (store32 (store64 (memory s2) curr size) curr MAGIC) curr
                    = MAGIC + 2 ^ 32 * (size / 2 ^ 32)).
    { rewrite load64_store32_low, load64_store64_same.
      rewrite (Z.mod_small size) by lia. reflexivity. }
    split; [exact Hlo|]. split; [exact Hfull|].
    rewrite Hfull. pose proof (Z.div_mod size (2 ^ 32) ltac:(lia)) as Hd.
    split; intros; lia.
Qed.

Lemma take_block_stamps_over_size_witness :
  exists s',
    take_block 1 big_free_block 4096 16 = Done (s', 4096) /\
    load32 (memory s') 4096 = MAGIC /\
    get_size (memory s') 4096 = MAGIC /\
    get_size (memory s') 4096 <> 16.
Proof.
  assert (H1 : 0 <= 16 < 2 ^ 64) by lia.
  assert (H2 : 4096 <> NULL) by discriminate.
  assert (H3 : snd (split big_free_block 4096
                      (to_int32 (wrap64 (16 + sizeof_free_block)))) <> NULL)
    by (vm_compute; discriminate).
  destruct (take_block_stamps_over_size 1 big_free_block 4096 16 H1 H2 H3)
    as [Hhead Hall].
  destruct (Hhead eq_refl) as [s' Hs'].
  destruct (Hall s' 4096 Hs') as (_ & Ha & Hb & Hc).
  exists s'. split; [exact Hs'|]. split; [exact Ha|]. split; [exact Hb|].
  intros Heq. apply Hc in Heq. vm_compute in Heq. discriminate.
Defined.

(** ** Zero-initialised allocation *)

(** C9, as stated, for [2^32] elements of [2^32] bytes on a process whose
    memory is not zero: the product wraps to zero, [tumalloc] is asked
    for no bytes, a non-null pointer comes back, and the first byte
    behind it, as every other, still reads 255. *)
Lemma tucalloc_overflow_not_zeroed :
  match tucalloc 1 dirty_heap (2 ^ 32) (2 ^ 32) with
  | Done (s', p) =>
      p = 4096 /\ p <> NULL /\
      memory s' p = 255 /\ memory s' (p + 1) = 255
  | _ => False
  end.
Proof.
  vm_compute. split; [reflexivity|]. split; [discriminate|]. split; reflexivity.
Qed.

(** C9, amended.  [tucalloc num size] computes [num * size] modulo
    [2^64], without a check for overflow, asks [tumalloc] for that many
    bytes and ends as that call ends.  When [tumalloc] returns a non-null
    pointer and the bytes asked for lie inside the heap, ending at or
    below the break, [tucalloc] returns the same pointer and every one of
    those bytes is zero, the rest of the state being what [tumalloc]
    left; when [tumalloc] returns null, [tucalloc] returns null and the
    state [tumalloc] left, untouched. *)
Theorem tucalloc_spec (fuel : nat) (s : state) (num size : Z) :
  let total_size := wrap64 (num * size) in
  match tumalloc fuel s total_size with
  | Done (s1, ptr) =>
      if ptr =? NULL then tucalloc fuel s num size = Done (s1, NULL)
      else
        ptr + total_size <= brk s1 ->
        exists s2,
          tucalloc fuel s num size = Done (s2, ptr) /\
          (forall i, 0 <= i < total_size -> memory s2 (ptr + i) = 0) /\
          (forall x, x < ptr \/ ptr + total_size <= x -> memory s2 x = memory s1 x) /\
          HEAD s2 = HEAD s1 /\ brk s2 = brk s1 /\ sbrk_calls s2 = sbrk_calls s1
  | Abort a => tucalloc fuel s num size = Abort a
  | Fault => tucalloc fuel s num size = Fault
  | Timeout => tucalloc fuel s num size = Timeout
  end.
Proof.
  intros total_size. unfold tucalloc. fold total_size.
  destruct (tumalloc fuel s total_size) as [[s1 ptr]| | |]; cbn; try reflexivity.
  destruct (ptr =? NULL) eqn:E; cbn.
  - apply Z.eqb_eq in E. subst ptr. reflexivity.
  - intros _. eexists. split; [reflexivity|]. cbn.
    split; [|split; [|split; [|split]]]; try reflexivity.
    + intros i Hi. rewrite memset_in by lia. reflexivity.
    + intros x Hx. apply memset_out. lia.
Qed.

Lemma tucalloc_spec_witness :
  exists s2,
    tucalloc 1 dirty_heap 4 8 = Done (s2, 4096) /\
    (forall i, 0 <= i < 32 -> memory s2 (4096 + i) = 0) /\
    memory s2 (4096 + 32) = 255.
Proof.
  pose proof (tucalloc_spec 1 dirty_heap 4 8) as Hspec. cbv zeta in Hspec.
  assert (Hobs : match tumalloc 1 dirty_heap (wrap64 (4 * 8)) with
                 | Done (s1, ptr) =>
                     ptr = 4096 /\ 4096 + 32 <= brk s1 /\
                     memory s1 (4096 + 32) = 255
                 | _ => False
                 end)
    by (vm_compute; split; [reflexivity|]; split; [discriminate | reflexivity]).
  destruct (tumalloc 1 dirty_heap (wrap64 (4 * 8))) as [[s1 ptr]| | |];
    try contradiction.
  destruct Hobs as (-> & Hfit & Hold).
  change (4096 =? NULL) with false in Hspec. cbv iota in Hspec.
  change (wrap64 (4 * 8)) with 32 in Hspec.
  destruct (Hspec Hfit) as (s2 & Hrun & Hzero & Hrest & _).
  exists s2. split; [exact Hrun|]. split; [exact Hzero|].
  rewrite Hrest by lia. exact Hold.
Defined.

(** A run of [tucalloc] that returns: four elements of eight bytes on a
    fresh process. *)
Example tucalloc_fresh_heap :
  match tucalloc 1 fresh_heap 4 8 with
  | Done (s', p) => p = 4096 /\ memory s' 4096 = 0 /\ memory s' (4096 + 31) = 0
  | _ => False
  end.
Proof. vm_compute. split; [reflexivity|]. split; reflexivity. Qed.

(** ** Heap growth *)

(** C8, as stated, with the break at 4129 and 17 bytes requested: [sbrk]
    grants the 33 bytes from 4129, [do_alloc] rounds the address up to
    4144, and only 18 bytes lie between it and the new break. *)
Lemma do_alloc_misaligned_break_short :
  let '(s', p) := do_alloc misaligned_break 17 in
  p = 4144 /\
  brk s' = 4129 + (17 + sizeof_free_block) /\
  brk s' - p < 17 + sizeof_free_block.
Proof. vm_compute. split; [reflexivity|]. split; reflexivity. Qed.

(** C8, amended.  For a request with [size + header_size] below [2^63]
    (so that it reaches [sbrk] as a positive increment) and a break
    inside the address space.  When the system refuses the growth,
    [do_alloc] returns null and the break stays.  Otherwise the break
    moves up by [size + header_size] and [do_alloc] returns the old break
    rounded up to the next multiple of 16: the bytes from the returned
    address to the new break number [size + header_size] when the old
    break was a multiple of 16, and otherwise that less the rounding, at
    least [size + 1]. *)
Theorem do_alloc_spec (s : state) (size : Z) :
  0 <= size ->
  size + sizeof_free_block < 2 ^ 63 ->
  0 < brk s ->
  brk s + ALIGNMENT < 2 ^ 64 ->
  let s' := fst (do_alloc s size) in
  let p := snd (do_alloc s size) in
  (brk_limit s < brk s + size + sizeof_free_block ->
     p = NULL /\ brk s' = brk s) /\
  (brk s + size + sizeof_free_block <= brk_limit s ->
     p mod ALIGNMENT = 0 /\
     brk s <= p < brk s + ALIGNMENT /\
     brk s' = brk s + size + sizeof_free_block /\
     size + 1 <= brk s' - p <= size + sizeof_free_block /\
     (brk s mod ALIGNMENT = 0 ->
        p = brk s /\ brk s' - p = size + sizeof_free_block)).
Proof.
  unfold sizeof_free_block, ALIGNMENT.
  intros Hsize Hmax Hbrk Htop. cbv zeta.
  unfold do_alloc, sbrk, sizeof_free_block, ALIGNMENT.
  rewrite (wrap64_small (size + 16)) by lia.
  rewrite (to_int64_small (size + 16)) by lia.
  rewrite (sbrk_grows_iff s (size + 16)) by lia.
  destruct (brk s + (size + 16) <=? brk_limit s) eqn:E.
  - apply Z.leb_le in E.
    split; [lia|]. intros _.
    destruct (brk s mod 16 =? 0) eqn:Ea; cbv beta iota zeta delta [negb].
    + apply Z.eqb_eq in Ea.
      assert (Hne : brk s <> SBRK_FAILED).
      { intros Heq. rewrite Heq in Ea. vm_compute in Ea. discriminate. }
      apply Z.eqb_neq in Hne. rewrite Hne. cbn [fst snd brk].
      repeat (split; try lia).
    + apply Z.eqb_neq in Ea.
      rewrite (wrap64_small (brk s + 16)) by lia.
      rewrite (wrap64_small (brk s + 16 - 1)) by lia.
      rewrite land_align16 by lia.
      pose proof (Z.div_mod (brk s + 16 - 1) 16 ltac:(lia)) as Hd.
      pose proof (Z.mod_pos_bound (brk s + 16 - 1) 16 ltac:(lia)) as Hr.
      set (q := (brk s + 16 - 1) / 16) in *.
      assert (Hmod : (16 * q) mod 16 = 0).
      { rewrite Z.mul_comm. apply Z.mod_mul. lia. }
      assert (Hne : 16 * q <> SBRK_FAILED).
      { intros Heq. rewrite Heq in Hmod. vm_compute in Hmod. discriminate. }
      apply Z.eqb_neq in Hne. rewrite Hne. cbn [fst snd brk].
      split; [exact Hmod|]. split; [lia|]. split; [lia|]. split; [lia|].
      intros H0. contradiction.
  - apply Z.leb_gt in E.
    split; [|intros Hok; lia].
    intros _. vm_compute. split; reflexivity.
Qed.

Lemma do_alloc_spec_witness :
  snd (do_alloc fresh_heap 64) mod ALIGNMENT = 0 /\
  brk (fst (do_alloc fresh_heap 64)) - snd (do_alloc fresh_heap 64)
    = 64 + sizeof_free_block.
Proof.
  assert (H1 : 0 <= 64) by lia.
  assert (H2 : 64 + sizeof_free_block < 2 ^ 63) by (vm_compute; reflexivity).
  assert (H3 : 0 < brk fresh_heap) by (vm_compute; reflexivity).
  assert (H4 : brk fresh_heap + ALIGNMENT < 2 ^ 64) by (vm_compute; reflexivity).
  destruct (do_alloc_spec fresh_heap 64 H1 H2 H3 H4) as [_ Hgrant].
  assert (H5 : brk fresh_heap + 64 + sizeof_free_block <= brk_limit fresh_heap)
    by (vm_compute; discriminate).
  destruct (Hgrant H5) as (Ha & _ & _ & _ & Hb).
  assert (H6 : brk fresh_heap mod ALIGNMENT = 0) by (vm_compute; reflexivity).
  split; [exact Ha | exact (proj2 (Hb H6))].
Defined.

(** ** Release *)

(** C4. [tufree NULL] returns with the state as it was.  For a non-null
    pointer the header is looked up at [ptr - header_size] (modulo
    [2^64]); the header must be readable, that is, not itself at the null
    address.  If its first four bytes are the sentinel, the block is
    pushed on the free list (it becomes [HEAD] and its [next] field takes
    the old [HEAD], no other byte changing) and [tufree] ends as
    [coalesce] on that block ends.  Otherwise the process aborts: the two
    corruption messages, the second with the header address, are the last
    things on its output, and memory, free list and break are as they
    were. *)
Theorem tufree_spec (fuel : nat) (s : state) (ptr : Z) :
  0 <= HEAD s < 2 ^ 64 ->
  let block_header := wrap64 (ptr - sizeof_free_block) in
  (sizeof_free_block <= ptr < 2 ^ 64 -> block_header = ptr - sizeof_free_block) /\
  (ptr = NULL -> tufree fuel s ptr = Done s) /\
  (ptr <> NULL -> block_header <> NULL ->
   load32 (memory s) block_header = MAGIC ->
     let pushed := push_free s block_header in
     HEAD pushed = block_header /\
     get_next (memory pushed) block_header = HEAD s /\
     (forall x, x < block_header + 8 \/ block_header + 16 <= x ->
                memory pushed x = memory s x) /\
     stdout pushed = stdout s /\
     tufree fuel s ptr =
       (r <- coalesce fuel pushed block_header ;; Done (fst r))) /\
  (ptr <> NULL -> block_header <> NULL ->
   load32 (memory s) block_header <> MAGIC ->
     exists a,
       tufree fuel s ptr = Abort a /\
       stdout a = stdout s ++ [PrintCorruption; PrintCorruptionAt block_header] /\
       memory a = memory s /\ HEAD a = HEAD s /\
       brk a = brk s /\ sbrk_calls a = sbrk_calls s).
Proof.
  intros Hhead block_header.
  split; [|split; [|split]].
  - intros Hp. subst block_header. apply wrap64_small.
    unfold sizeof_free_block in *. lia.
  - intros ->. reflexivity.
  - intros Hnn Hbn Hmagic pushed. subst pushed. unfold push_free.
    split; [reflexivity|]. split; [|split; [|split]].
    + cbn [memory set_HEAD set_memory]. mem_simpl.
      apply Z.mod_small. exact Hhead.
    + intros x Hx. cbn [memory set_HEAD set_memory]. fields.
      unfold store64. apply store_le_out. lia.
    + reflexivity.
    + unfold tufree. apply Z.eqb_neq in Hnn. rewrite Hnn.
      fold block_header. rewrite (proj2 (Z.eqb_neq _ _) Hbn).
      apply Z.eqb_eq in Hmagic. rewrite Hmagic.
      reflexivity.
  - intros Hnn Hbn Hmagic. unfold tufree.
    apply Z.eqb_neq in Hnn. rewrite Hnn.
    fold block_header. rewrite (proj2 (Z.eqb_neq _ _) Hbn).
    apply Z.eqb_neq in Hmagic. rewrite Hmagic.
    eexists. split; [reflexivity|]. cbn.
    rewrite <- app_assoc. repeat split.
Qed.

Lemma tufree_spec_witness :
  tufree 4 stamped_block NULL = Done stamped_block /\
  tufree 4 stamped_block 4112 =
    (r <- coalesce 4 (push_free stamped_block 4096) 4096 ;; Done (fst r)) /\
  exists a,
    tufree 4 fresh_heap 4112 = Abort a /\
    stdout a = [PrintCorruption; PrintCorruptionAt 4096].
Proof.
  assert (Hs : 0 <= HEAD stamped_block < 2 ^ 64)
    by (vm_compute; split; [discriminate | reflexivity]).
  assert (Hf : 0 <= HEAD fresh_heap < 2 ^ 64)
    by (vm_compute; split; [discriminate | reflexivity]).
  split; [|split].
  - apply (tufree_spec 4 stamped_block NULL Hs). reflexivity.
  - destruct (tufree_spec 4 stamped_block 4112 Hs) as (_ & _ & Hok & _).
    apply Hok; [discriminate | vm_compute; discriminate | vm_compute; reflexivity].
  - destruct (tufree_spec 4 fresh_heap 4112 Hf) as (_ & _ & _ & Hbad).
    destruct Hbad as (a & Hrun & Hout & _);
      [discriminate | vm_compute; discriminate | vm_compute; discriminate |].
    exists a. split; [exact Hrun | exact Hout].
Defined.

(** C3. A pointer obtained from [tumalloc] and released twice.  With one
    small block on the free list, [tumalloc] of 19088743 (0x01234567)
    bytes returns a block from the growth path whose header, holding that
    size, starts with the sentinel bytes.  The first [tufree] of the
    pointer returns and puts the block on the free list; the header still
    starts with the sentinel.  The second [tufree] of the same pointer is
    never reported as corruption: the check passes again, the block is
    pushed with its [next] pointing at itself, and [find_prev] walks that
    cycle for every amount of fuel. *)
Theorem double_release_is_not_detected :
  match tumalloc 4 small_list_large_heap MAGIC with
  | Done (s0, p) =>
      p = 8192 + sizeof_free_block /\
      match tufree 4 s0 p with
      | Done s1 =>
          free_list 4 s1 = [8192; 4096] /\
          load32 (memory s1) 8192 = MAGIC /\
          (forall fuel a, tufree fuel s1 p <> Abort a) /\
          (forall fuel, tufree fuel s1 p = Timeout)
      | _ => False
      end
  | _ => False
  end.
Proof.
  assert (Hobs : match tumalloc 4 small_list_large_heap MAGIC with
                 | Done (s0, p) =>
                     p = 8208 /\
                     match tufree 4 s0 p with
                     | Done s1 =>
                         free_list 4 s1 = [8192; 4096] /\
                         load32 (memory s1) 8192 = MAGIC /\
                         HEAD s1 = 8192 /\
                         get_size (memory s1) 8192 = MAGIC
                     | _ => False
                     end
                 | _ => False
                 end)
    by (vm_compute; split; [reflexivity|]; split; [reflexivity|];
        split; [reflexivity|]; split; reflexivity).
  destruct (tumalloc 4 small_list_large_heap MAGIC) as [[s0 p]| | |];
    try contradiction.
  destruct Hobs as [-> Hobs]. split; [reflexivity|].
  destruct (tufree 4 s0 8208) as [s1| | |]; try contradiction.
  destruct Hobs as (Hlist & Hmagic & Hhead & Hsize).
  split; [exact Hlist|]. split; [exact Hmagic|]. split.
  - intros fuel a Habort. apply tufree_abort_sentinel in Habort.
    apply Habort. exact Hmagic.
  - intros fuel. unfold tufree. change (8208 =? NULL) with false.
    change (wrap64 (8208 - sizeof_free_block)) with 8192.
    change (8192 =? NULL) with false.
    rewrite (proj2 (Z.eqb_eq _ _) Hmagic).
    unfold coalesce. change (8192 =? NULL) with false.
    unfold find_prev.
    rewrite find_prev_loop_self_cycle; [reflexivity | discriminate | |].
    + unfold push_free. cbn [memory HEAD set_HEAD set_memory]. mem_simpl.
      rewrite Hhead. reflexivity.
    + unfold push_free. cbn [memory HEAD set_HEAD set_memory].
      assert (Hs : get_size (set_next (memory s1) 8192 (HEAD s1)) 8192 = MAGIC).
      { rewrite <- Hsize. mem_simpl. reflexivity. }
      rewrite Hs. vm_compute. discriminate.
Qed.

(** ** Coalescing *)

(** C5. Two adjacent allocated blocks, [A] at 4096 and [B] right behind
    it, released in the order [A], [B].  [coalesce] folds [B] into [A],
    whose size becomes the two sizes plus one header, but [B] was pushed
    as the head of the free list and is not unlinked: the list is left
    with two entries, [B] (lying inside the merged block) and [A]. *)
Theorem free_A_then_B_leaves_two_entries :
  match tufree 4 two_adjacent (block_A + sizeof_free_block) with
  | Done s1 =>
      match tufree 4 s1 (block_B + sizeof_free_block) with
      | Done s2 =>
          free_list 4 s2 = [block_B; block_A] /\
          get_size (memory s2) block_A = MAGIC + MAGIC + sizeof_free_block /\
          get_size (memory s2) block_B = MAGIC /\
          block_A + sizeof_free_block + get_size (memory s2) block_A
            = block_B + sizeof_free_block + get_size (memory s2) block_B
      | _ => False
      end
  | _ => False
  end.
Proof.
  vm_compute. split; [reflexivity|]. split; [reflexivity|]. split; reflexivity.
Qed.

(** The other order, [B] then [A], does merge the two into one entry. *)
Lemma free_B_then_A_leaves_one_entry :
  match tufree 4 two_adjacent (block_B + sizeof_free_block) with
  | Done s1 =>
      match tufree 4 s1 (block_A + sizeof_free_block) with
      | Done s2 =>
          free_list 4 s2 = [block_A] /\
          get_size (memory s2) block_A = MAGIC + MAGIC + sizeof_free_block
      | _ => False
      end
  | _ => False
  end.
Proof. vm_compute. split; reflexivity. Qed.

(** ** Resize *)

(** C6, as stated, on an allocated block of 64 bytes at 4096 shrunk to 16
    bytes: the same pointer comes back and a residual header of 32 bytes
    is written at [p + 16], but no walk of the free list reaches it. *)
Lemma shrink_residual_not_on_free_list :
  exists s',
    turealloc 1 shrink_state 4112 16 = Done (s', 4112) /\
    get_size (memory s') (4112 + 16) = 32 /\
    forall fuel, ~ In (4112 + 16) (free_list fuel s').
Proof.
  assert (Hobs : match turealloc 1 shrink_state 4112 16 with
                 | Done (s', p) =>
                     p = 4112 /\ get_size (memory s') (4112 + 16) = 32 /\
                     HEAD s' = NULL
                 | _ => False
                 end)
    by (vm_compute; split; [reflexivity | split; reflexivity]).
  destruct (turealloc 1 shrink_state 4112 16) as [[s' p]| | |]; try contradiction.
  destruct Hobs as (-> & Hres & Hhead).
  exists s'. split; [reflexivity|]. split; [exact Hres|].
  intros fuel. rewrite (free_list_empty fuel s' Hhead). intros [].
Qed.

(** C6, amended.  For a block lying in the address space and a new size
    (below [2^31]) strictly smaller than its size field, [turealloc]
    returns the same pointer, keeps the first [new_size] payload bytes and
    leaves [HEAD] as it was.  When the old size is at least
    [new_size + header_size], the size field becomes [new_size] and a
    residual header is written at [ptr + new_size], holding
    [old size - new_size - header_size] and the block's old [next] field,
    nothing else changing: the residual is not linked into the free list.
    When the old size is smaller than that, the state is unchanged.  (A
    pointer of exactly [header_size] has its header at the null address:
    there the read of the size field is a null dereference.) *)
Theorem turealloc_shrink_spec (fuel : nat) (s : state) (ptr new_size : Z) :
  sizeof_free_block <= ptr ->
  let block := ptr - sizeof_free_block in
  let old_size := get_size (memory s) block in
  ptr + old_size <= 2 ^ 64 ->
  0 <= new_size < 2 ^ 31 ->
  new_size < old_size ->
  (ptr = sizeof_free_block -> turealloc fuel s ptr new_size = Fault) /\
  (sizeof_free_block < ptr ->
   exists s',
    turealloc fuel s ptr new_size = Done (s', ptr) /\
    HEAD s' = HEAD s /\
    (forall i, 0 <= i < new_size -> memory s' (ptr + i) = memory s (ptr + i)) /\
    (new_size + sizeof_free_block <= old_size ->
       get_size (memory s') block = new_size /\
       get_size (memory s') (ptr + new_size)
         = old_size - new_size - sizeof_free_block /\
       get_next (memory s') (ptr + new_size) = get_next (memory s) block /\
       (forall x,
          ~ (block <= x < block + 8) ->
          ~ (ptr + new_size <= x < ptr + new_size + sizeof_free_block) ->
          memory s' x = memory s x)) /\
    (old_size < new_size + sizeof_free_block -> s' = s)).
Proof.
  intros Hptr block old_size Hfit Hnew Hlt.
  pose proof (get_size_range (memory s) block) as Hsz. fold old_size in Hsz.
  split; [intros ->; reflexivity|]. intros Hreal.
  unfold turealloc.
  assert (Hnn : (ptr =? NULL) = false).
  { apply Z.eqb_neq. unfold NULL, sizeof_free_block in *. lia. }
  rewrite Hnn.
  assert (Hb : wrap64 (ptr - sizeof_free_block) = block).
  { apply wrap64_small. unfold sizeof_free_block in *. lia. }
  rewrite Hb.
  assert (Hbn : (block =? NULL) = false).
  { apply Z.eqb_neq. subst block. unfold NULL, sizeof_free_block in *. lia. }
  rewrite Hbn. fold old_size.
  rewrite (proj2 (Z.eqb_neq new_size old_size)) by lia.
  rewrite (proj2 (Z.ltb_lt new_size old_size)) by lia.
  rewrite (to_int32_small new_size) by lia.
  pose proof (split_frame s block new_size) as Hframe.
  destruct (Z.lt_ge_cases old_size (new_size + sizeof_free_block)) as [Hsmall|Hbig].
  - rewrite (split_refused s block new_size Hnew Hsmall).
    exists s. split; [reflexivity|]. split; [reflexivity|].
    split; [reflexivity|]. split; [lia|]. reflexivity.
  - assert (Hin : block + sizeof_free_block + get_size (memory s) block <= 2 ^ 64).
    { fold old_size. subst block. lia. }
    assert (Hb0 : 0 <= block) by (subst block; lia).
    pose proof (split_done s block new_size Hnew Hb0 Hin Hbig) as Hd.
    cbv zeta in Hd, Hframe.
    replace (block + new_size + sizeof_free_block) with (ptr + new_size) in Hd
      by (subst block; lia).
    destruct (split s block new_size) as [s1 r]. cbn [fst snd] in *.
    destruct Hframe as (Hhead & _). destruct Hd as (_ & H1 & H2 & H3 & H4).
    exists s1. split; [reflexivity|]. split; [exact Hhead|]. split; [|split].
    + intros i Hi. apply H4; subst block; unfold sizeof_free_block in *; lia.
    + intros _. split; [exact H1|]. split; [exact H2|]. split; [exact H3|exact H4].
    + intros Hc. lia.
Qed.

Lemma turealloc_shrink_spec_witness :
  exists s',
    turealloc 1 shrink_state 4112 16 = Done (s', 4112) /\
    HEAD s' = HEAD shrink_state /\
    memory s' 4112 = 1 /\
    get_size (memory s') 4096 = 16 /\
    get_size (memory s') 4128 = 32.
Proof.
  assert (H1 : sizeof_free_block <= 4112) by (vm_compute; discriminate).
  assert (H2 : 4112 + get_size (memory shrink_state) (4112 - sizeof_free_block) <= 2 ^ 64)
    by (vm_compute; discriminate).
  assert (H3 : 0 <= 16 < 2 ^ 31) by lia.
  assert (H4 : 16 < get_size (memory shrink_state) (4112 - sizeof_free_block))
    by (vm_compute; reflexivity).
  destruct (turealloc_shrink_spec 1 shrink_state 4112 16 H1 H2 H3 H4)
    as [_ Hshrink].
  destruct Hshrink as (s' & Hret & Hhead & Hprefix & Hsplit & _);
    [vm_compute; reflexivity|].
  assert (H5 : 16 + sizeof_free_block
               <= get_size (memory shrink_state) (4112 - sizeof_free_block))
    by (vm_compute; discriminate).
  destruct (Hsplit H5) as (Ha & Hb & _).
  exists s'. split; [exact Hret|]. split; [exact Hhead|].
  split; [|split; [exact Ha | exact Hb]].
  rewrite <- (Z.add_0_r 4112). rewrite (Hprefix 0) by lia. reflexivity.
Defined.

(** * Further properties of the allocator *)

(** ** Walking a well-formed free list *)

Module ListFacts.
Import Machine Mem Alloc FreeList Scenarios MachineFacts MemFacts AllocFacts.

Lemma list_at_chain m h L :
  list_at m h L ->
  forall fuel, (length L < fuel)%nat -> chain fuel m h = L.
Proof.
  induction 1 as [|h L Hnn _ IH]; intros fuel Hfuel.
  - destruct fuel; reflexivity.
  - destruct fuel as [|k]; [cbn in Hfuel; lia|].
    cbn [chain]. rewrite (proj2 (Z.eqb_neq _ _) Hnn).
    f_equal. apply IH. cbn in Hfuel. lia.
Qed.

Lemma list_at_nonnull m h L c : list_at m h L -> In c L -> c <> NULL.
Proof.
  induction 1 as [|h L Hnn _ IH]; intros Hin; [contradiction|].
  destruct Hin as [<-|Hin]; [exact Hnn | exact (IH Hin)].
Qed.

(** A list only depends on the [next] fields of its own blocks. *)
Lemma list_at_frame m m' h L :
  list_at m h L ->
  (forall x, In x L -> get_next m' x = get_next m x) ->
  list_at m' h L.
Proof.
  induction 1 as [|h L Hnn _ IH]; intros Hsame; [constructor|].
  constructor; [exact Hnn|].
  rewrite (Hsame h (or_introl eq_refl)).
  apply IH. intros x Hx. apply Hsame. right. exact Hx.
Qed.

Lemma list_at_app_inv m l1 : forall h c l2,
  list_at m h (l1 ++ c :: l2) -> list_at m c (c :: l2).
Proof.
  induction l1 as [|a l1 IH]; intros h c l2 H.
  - cbn in H. inversion H; subst. exact H.
  - cbn in H. inversion H; subst. eapply IH. eassumption.
Qed.

Lemma find_prev_loop_spec m block L :
  forall curr fuel,
    list_at m curr L -> (length L < fuel)%nat ->
    exists r,
      find_prev_loop fuel m curr block = Done r /\
      ((r = NULL /\ forall c, In c L -> block_end m c <> block) \/
       (exists l1 l2,
          L = l1 ++ r :: l2 /\ block_end m r = block /\
          forall c, In c l1 -> block_end m c <> block)).
Proof.
  induction L as [|a L IH]; intros curr fuel Hlist Hfuel.
  - inversion Hlist; subst. destruct fuel as [|k]; [cbn in Hfuel; lia|].
    exists NULL. split; [reflexivity|]. left. split; [reflexivity|].
    intros c [].
  - inversion Hlist as [|h L' Hnn Hrest]; subst.
    destruct fuel as [|k]; [cbn in Hfuel; lia|].
    cbn [find_prev_loop]. rewrite (proj2 (Z.eqb_neq _ _) Hnn).
    fold (block_end m a).
    destruct (block_end m a =? block) eqn:E.
    + apply Z.eqb_eq in E. exists a. split; [reflexivity|]. right.
      exists [], L. split; [reflexivity|]. split; [exact E|]. intros c [].
    + apply Z.eqb_neq in E.
      destruct (IH (get_next m a) k Hrest ltac:(cbn in Hfuel; lia))
        as (r & Hr & Hcase).
      exists r. split; [exact Hr|].
      destruct Hcase as [[-> Hnone]|(l1 & l2 & -> & Hend & Hbefore)].
      * left. split; [reflexivity|].
        intros c [<-|Hc]; [exact E | exact (Hnone c Hc)].
      * right. exists (a :: l1), l2. split; [reflexivity|].
        split; [exact Hend|].
        intros c [<-|Hc]; [exact E | exact (Hbefore c Hc)].
Qed.

Lemma find_next_loop_spec m block_end0 L :
  forall curr fuel,
    list_at m curr L -> (length L < fuel)%nat ->
    exists r,
      find_next_loop fuel m curr block_end0 = Done r /\
      ((r = NULL /\ ~ In block_end0 L) \/ (r = block_end0 /\ In r L)).
Proof.
  induction L as [|a L IH]; intros curr fuel Hlist Hfuel.
  - inversion Hlist; subst. destruct fuel as [|k]; [cbn in Hfuel; lia|].
    exists NULL. split; [reflexivity|]. left. split; [reflexivity|]. intros [].
  - inversion Hlist as [|h L' Hnn Hrest]; subst.
    destruct fuel as [|k]; [cbn in Hfuel; lia|].
    cbn [find_next_loop]. rewrite (proj2 (Z.eqb_neq _ _) Hnn).
    destruct (a =? block_end0) eqn:E.
    + apply Z.eqb_eq in E. exists a. split; [reflexivity|]. right.
      split; [exact E | left; reflexivity].
    + apply Z.eqb_neq in E.
      destruct (IH (get_next m a) k Hrest ltac:(cbn in Hfuel; lia))
        as (r & Hr & Hcase).
      exists r. split; [exact Hr|].
      destruct Hcase as [[-> Hnone]|[-> Hin]].
      * left. split; [reflexivity|]. intros [Heq|Hin]; [congruence | tauto].
      * right. split; [reflexivity | right; exact Hin].
Qed.

(** Checks [list_at] on a concrete memory by following the links. *)
Ltac walk_list :=
  repeat first
    [ apply list_at_nil
    | apply list_at_cons;
      [ discriminate
      | match goal with
        | |- list_at ?m (get_next ?m ?h) _ =>
            let v := eval vm_compute in (get_next m h) in
            change (get_next m h) with v
        end ] ].

End ListFacts.

Import FreeList ListFacts.

(** X1. On a null-terminated free list and with fuel for its length,
    [find_prev] returns.  What it returns is the first block of the list
    whose end address [c + c->size + header_size] is the given block, or
    null when no block of the list ends there. *)
Theorem find_prev_spec (fuel : nat) (s : state) (block : Z) (L : list Z) :
  list_at (memory s) (HEAD s) L ->
  (length L < fuel)%nat ->
  exists r,
    find_prev fuel s block = Done r /\
    ((r = NULL /\ forall c, In c L -> block_end (memory s) c <> block) \/
     (exists l1 l2,
        L = l1 ++ r :: l2 /\ block_end (memory s) r = block /\
        forall c, In c l1 -> block_end (memory s) c <> block)).
Proof.
  intros Hlist Hfuel. unfold find_prev.
  exact (find_prev_loop_spec (memory s) block L (HEAD s) fuel Hlist Hfuel).
Qed.

Lemma find_prev_spec_witness :
  exists r,
    find_prev 3 two_free_blocks 8240 = Done r /\
    ((r = NULL /\
      forall c, In c [4096; 8192] -> block_end (memory two_free_blocks) c <> 8240) \/
     (exists l1 l2,
        [4096; 8192] = l1 ++ r :: l2 /\
        block_end (memory two_free_blocks) r = 8240 /\
        forall c, In c l1 -> block_end (memory two_free_blocks) c <> 8240)).
Proof.
  apply (find_prev_spec 3 two_free_blocks 8240 [4096; 8192]).
  - change (HEAD two_free_blocks) with 4096. walk_list.
  - cbn. lia.
Defined.

(** X2. On a null-terminated free list and with fuel for its length,
    [find_next] returns: the block's end address
    [block + block->size + header_size] itself when that address is a
    block of the list, and null when it is not. *)
Theorem find_next_spec (fuel : nat) (s : state) (block : Z) (L : list Z) :
  list_at (memory s) (HEAD s) L ->
  (length L < fuel)%nat ->
  exists r,
    find_next fuel s block = Done r /\
    ((r = NULL /\ ~ In (block_end (memory s) block) L) \/
     (r = block_end (memory s) block /\ In r L)).
Proof.
  intros Hlist Hfuel. unfold find_next.
  exact (find_next_loop_spec (memory s) (block_end (memory s) block) L
           (HEAD s) fuel Hlist Hfuel).
Qed.

Lemma find_next_spec_witness :
  exists r,
    find_next 3 two_free_blocks 4096 = Done r /\
    ((r = NULL /\ ~ In (block_end (memory two_free_blocks) 4096) [4096; 8192]) \/
     (r = block_end (memory two_free_blocks) 4096 /\ In r [4096; 8192])).
Proof.
  apply (find_next_spec 3 two_free_blocks 4096 [4096; 8192]).
  - change (HEAD two_free_blocks) with 4096. walk_list.
  - cbn. lia.
Defined.

(** ** Unlinking a block *)

Lemma get_next_set_next_same m c v :
  0 <= v < 2 ^ 64 -> get_next (set_next m c v) c = v.
Proof. intros Hv. mem_simpl. apply Z.mod_small. exact Hv. Qed.

Lemma get_next_set_next_other m c v x :
  x + sizeof_free_block <= c \/ c + sizeof_free_block <= x ->
  get_next (set_next m c v) x = get_next m x.
Proof. intros H. mem_simpl. reflexivity. Qed.

(** Rewriting the [next] field of [c] to skip its successor [block]
    removes [block] from the list and nothing else. *)
Lemma list_at_skip m block l1 : forall h c l2,
  list_at m h (l1 ++ c :: block :: l2) ->
  NoDup (l1 ++ c :: block :: l2) ->
  separated (l1 ++ c :: block :: l2) ->
  list_at (set_next m c (get_next m block)) h (l1 ++ c :: l2).
Proof.
  induction l1 as [|a l1 IH]; intros h c l2 Hlist Hnd Hsep.
  - cbn in *. inversion Hlist as [|? ? Hc Hrest]; subst.
    inversion Hrest as [|? ? Hb Htail]; subst.
    constructor; [exact Hc|].
    rewrite get_next_set_next_same by apply get_next_range.
    apply (list_at_frame m); [exact Htail|].
    intros x Hx. apply get_next_set_next_other.
    apply Hsep; [right; right; exact Hx | left; reflexivity |].
    intros ->. inversion Hnd as [|? ? Hnotin _]; subst.
    apply Hnotin. right. exact Hx.
  - cbn in *. inversion Hlist as [|? ? Ha Hrest]; subst.
    inversion Hnd as [|? ? Hnotin Hnd']; subst.
    constructor; [exact Ha|].
    rewrite get_next_set_next_other.
    + apply IH; [exact Hrest | exact Hnd' |].
      intros x y Hx Hy. apply Hsep; right; assumption.
    + apply Hsep; [left; reflexivity | right; apply in_elt |].
      intros ->. apply Hnotin. apply in_elt.
Qed.

Lemma remove_loop_found s block L :
  forall curr fuel,
    list_at (memory s) curr L ->
    curr <> block -> In block L ->
    (length L < fuel)%nat ->
    exists c l1 l2,
      L = l1 ++ c :: block :: l2 /\
      remove_loop fuel s curr block =
        Done (set_memory s
                (set_next (memory s) c (get_next (memory s) block))).
Proof.
  induction L as [|a L IH]; intros curr fuel Hlist Hne Hin Hfuel;
    [contradiction|].
  inversion Hlist as [|? ? Hnn Hrest]; subst.
  destruct Hin as [Heq|Hin]; [congruence|].
  destruct fuel as [|k]; [cbn in Hfuel; lia|].
  cbn [remove_loop]. rewrite (proj2 (Z.eqb_neq _ _) Hnn).
  destruct (get_next (memory s) a =? block) eqn:E.
  - apply Z.eqb_eq in E. rewrite E in Hrest.
    inversion Hrest; subst; [contradiction|].
    exists a, []. eexists. split; [reflexivity|]. reflexivity.
  - apply Z.eqb_neq in E.
    destruct (IH (get_next (memory s) a) k Hrest E Hin
                ltac:(cbn in Hfuel; lia)) as (c & l1 & l2 & -> & Hrun).
    exists c, (a :: l1), l2. split; [reflexivity | exact Hrun].
Qed.

Lemma remove_loop_absent s block L :
  forall curr fuel,
    list_at (memory s) curr L ->
    block <> NULL -> ~ In block L ->
    (length L < fuel)%nat ->
    remove_loop fuel s curr block = Done s.
Proof.
  induction L as [|a L IH]; intros curr fuel Hlist Hb Hnotin Hfuel.
  - inversion Hlist; subst. destruct fuel as [|k]; [cbn in Hfuel; lia|].
    reflexivity.
  - inversion Hlist as [|? ? Hnn Hrest]; subst.
    destruct fuel as [|k]; [cbn in Hfuel; lia|].
    cbn [remove_loop]. rewrite (proj2 (Z.eqb_neq _ _) Hnn).
    destruct (get_next (memory s) a =? block) eqn:E.
    + apply Z.eqb_eq in E. rewrite E in Hrest.
      inversion Hrest; subst; [congruence|].
      exfalso. apply Hnotin. right. left. reflexivity.
    + apply IH; [exact Hrest | exact Hb | | cbn in Hfuel; lia].
      intros Hin. apply Hnotin. right. exact Hin.
Qed.

(** X3. Removing a block that is on a well-formed free list (null
    terminated, no block twice, headers apart) unlinks exactly that
    block: [remove_free_block] returns, and the list reached from [HEAD]
    afterwards is the old list without the block, in the old order.  The
    break and the output are untouched. *)
Theorem remove_free_block_unlinks (fuel : nat) (s : state) (block : Z) (L : list Z) :
  list_at (memory s) (HEAD s) L ->
  NoDup L ->
  separated L ->
  In block L ->
  (length L < fuel)%nat ->
  exists s' l1 l2,
    L = l1 ++ block :: l2 /\
    remove_free_block fuel s block = Done s' /\
    list_at (memory s') (HEAD s') (l1 ++ l2) /\
    brk s' = brk s /\ sbrk_calls s' = sbrk_calls s /\ stdout s' = stdout s.
Proof.
  intros Hlist Hnd Hsep Hin Hfuel. unfold remove_free_block.
  destruct (HEAD s =? block) eqn:E.
  - apply Z.eqb_eq in E. rewrite E in Hlist.
    inversion Hlist as [|? ? Hnn Hrest]; subst; [contradiction|].
    eexists. exists []. eexists. split; [reflexivity|].
    split; [reflexivity|]. cbn. split; [exact Hrest|].
    split; [reflexivity|]. split; reflexivity.
  - apply Z.eqb_neq in E.
    destruct (remove_loop_found s block L (HEAD s) fuel Hlist E Hin Hfuel)
      as (c & l1 & l2 & -> & Hrun).
    eexists. exists (l1 ++ [c]), l2.
    split; [rewrite <- app_assoc; reflexivity|].
    split; [exact Hrun|]. cbn [memory HEAD set_memory brk sbrk_calls stdout].
    split; [|split; [reflexivity | split; reflexivity]].
    rewrite <- app_assoc. cbn [app].
    apply list_at_skip; assumption.
Qed.

Lemma remove_free_block_unlinks_witness :
  exists s' l1 l2,
    [4096; 8192] = l1 ++ 8192 :: l2 /\
    remove_free_block 3 two_free_blocks 8192 = Done s' /\
    list_at (memory s') (HEAD s') (l1 ++ l2) /\
    brk s' = brk two_free_blocks /\
    sbrk_calls s' = sbrk_calls two_free_blocks /\
    stdout s' = stdout two_free_blocks.
Proof.
  apply (remove_free_block_unlinks 3 two_free_blocks 8192 [4096; 8192]).
  - change (HEAD two_free_blocks) with 4096. walk_list.
  - repeat constructor; cbn; intuition discriminate.
  - intros a b [<-|[<-|[]]] [<-|[<-|[]]] Hne;
      try congruence; vm_compute; intuition discriminate.
  - right. left. reflexivity.
  - cbn. lia.
Defined.

(** X4. Removing a non-null block that is not on the (null-terminated)
    free list walks the whole list and changes nothing. *)
Theorem remove_free_block_absent (fuel : nat) (s : state) (block : Z) (L : list Z) :
  list_at (memory s) (HEAD s) L ->
  block <> NULL ->
  ~ In block L ->
  (length L < fuel)%nat ->
  remove_free_block fuel s block = Done s.
Proof.
  intros Hlist Hb Hnotin Hfuel. unfold remove_free_block.
  destruct (HEAD s =? block) eqn:E.
  - apply Z.eqb_eq in E. rewrite E in Hlist.
    inversion Hlist; subst; [congruence|].
    exfalso. apply Hnotin. left. reflexivity.
  - apply remove_loop_absent with L; assumption.
Qed.

Lemma remove_free_block_absent_witness :
  remove_free_block 3 two_free_blocks 12288 = Done two_free_blocks.
Proof.
  apply (remove_free_block_absent 3 two_free_blocks 12288 [4096; 8192]).
  - change (HEAD two_free_blocks) with 4096. walk_list.
  - discriminate.
  - cbn. intuition discriminate.
  - cbn. lia.
Defined.

(** ** What the allocator leaves to the operating system *)

Lemma same_os_refl s : same_os s s.
Proof. repeat split. Qed.

Lemma same_os_trans s1 s2 s3 : same_os s1 s2 -> same_os s2 s3 -> same_os s1 s3.
Proof.
  intros (A1 & A2 & A3 & A4) (B1 & B2 & B3 & B4).
  repeat split; congruence.
Qed.

Lemma remove_loop_os fuel s curr block s' :
  remove_loop fuel s curr block = Done s' -> same_os s s'.
Proof.
  revert curr. induction fuel as [|k IH]; intros curr; cbn; [discriminate|].
  destruct (curr =? NULL); [intros H; inversion H; apply same_os_refl|].
  destruct (_ =? block); [intros H; inversion H; repeat split|].
  apply IH.
Qed.

Lemma take_block_os fuel s curr size s' p :
  take_block fuel s curr size = Done (s', p) -> same_os s s'.
Proof.
  unfold take_block.
  pose proof (split_frame s curr (to_int32 (wrap64 (size + sizeof_free_block)))) as Hf.
  destruct (split s curr _) as [s1 sp]. cbn in Hf.
  assert (H1 : same_os s s1) by (unfold same_os; tauto).
  destruct (sp =? NULL); [intros H; inversion H; subst; exact H1|].
  unfold remove_free_block. destruct (HEAD s1 =? curr).
  - cbn [bind]. intros H. inversion H. subst. exact H1.
  - destruct (remove_loop fuel s1 (HEAD s1) curr) as [s2| | |] eqn:E;
      cbn [bind]; try discriminate.
    intros H. inversion H. subst.
    apply remove_loop_os in E.
    apply (same_os_trans s s1); [exact H1|]. exact E.
Qed.

Lemma tumalloc_scan_os fuel s curr size s' r :
  tumalloc_scan fuel s curr size = Done (s', r) -> same_os s s'.
Proof.
  revert s curr. induction fuel as [|k IH]; intros s curr; [discriminate|].
  cbn [tumalloc_scan].
  destruct (curr =? NULL); [intros H; inversion H; apply same_os_refl|].
  destruct (size <=? _); [|apply IH].
  destruct (take_block (S k) s curr size) as [[s1 sp]| | |] eqn:E;
    cbn [bind]; try discriminate.
  apply take_block_os in E.
  destruct (sp =? NULL).
  - intros H. inversion H. subst. exact E.
  - intros H. apply IH in H. exact (same_os_trans _ _ _ E H).
Qed.

(** What [do_alloc] can return: null, or the old break rounded up. *)
Lemma do_alloc_pointer s n :
  0 < brk s -> brk s + ALIGNMENT < 2 ^ 64 ->
  snd (do_alloc s n) = NULL \/
  (brk s <= snd (do_alloc s n) < brk s + ALIGNMENT).
Proof.
  unfold ALIGNMENT. intros Hpos Htop. unfold do_alloc, sbrk, ALIGNMENT.
  destruct (_ && _).
  - destruct (brk s mod 16 =? 0) eqn:Ea; cbv beta iota zeta delta [negb].
    + destruct (brk s =? SBRK_FAILED); cbn [snd]; [left; reflexivity | right; lia].
    + rewrite (wrap64_small (brk s + 16)) by lia.
      rewrite (wrap64_small (brk s + 16 - 1)) by lia.
      rewrite land_align16 by lia.
      pose proof (Z.div_mod (brk s + 16 - 1) 16 ltac:(lia)) as Hd.
      pose proof (Z.mod_pos_bound (brk s + 16 - 1) 16 ltac:(lia)) as Hr.
      destruct (_ =? SBRK_FAILED); cbn [snd]; [left; reflexivity | right; lia].
  - left. vm_compute. reflexivity.
Qed.

Lemma do_alloc_aligned s n : snd (do_alloc s n) mod ALIGNMENT = 0.
Proof.
  unfold do_alloc. destruct (sbrk s _) as [s1 ptr]. unfold ALIGNMENT.
  destruct (ptr mod 16 =? 0) eqn:Ea; cbv beta iota zeta delta [negb].
  - apply Z.eqb_eq in Ea.
    destruct (ptr =? SBRK_FAILED); cbn [snd]; [reflexivity | exact Ea].
  - rewrite land_align16 by apply wrap64_range.
    destruct (_ =? SBRK_FAILED); cbn [snd]; [reflexivity|].
    rewrite Z.mul_comm. apply Z.mod_mul. lia.
Qed.

Lemma do_alloc_os s n :
  brk_limit (fst (do_alloc s n)) = brk_limit s /\
  stdout (fst (do_alloc s n)) = stdout s /\
  HEAD (fst (do_alloc s n)) = HEAD s /\
  memory (fst (do_alloc s n)) = memory s.
Proof.
  unfold do_alloc, sbrk.
  destruct (_ && _); cbv zeta;
    repeat match goal with
           | |- context [if ?c then _ else _] => destruct c
           end; repeat split; reflexivity.
Qed.

(** X5. Every pointer [tumalloc] returns is a multiple of 16 (null
    included), whatever the break and the free list are. *)
Theorem tumalloc_result_aligned (fuel : nat) (s : state) (size : Z) :
  match tumalloc fuel s size with
  | Done (_, p) => p mod ALIGNMENT = 0
  | _ => True
  end.
Proof.
  unfold tumalloc. destruct (HEAD s =? NULL).
  - pose proof (do_alloc_aligned s (wrap64 (size + sizeof_free_block))) as Ha.
    destruct (do_alloc s _) as [s1 p]. exact Ha.
  - destruct (tumalloc_scan fuel s (HEAD s) size) as [[s1 r]| | |] eqn:E;
      cbn [bind]; try exact I.
    apply tumalloc_scan_result in E. destruct E as [_ [->| ->]].
    + pose proof (do_alloc_aligned s1 (wrap64 (size + sizeof_free_block))) as Ha.
      destruct (do_alloc s1 _) as [s2 ptr]. cbn [snd] in Ha.
      destruct (ptr =? NULL); [exact I|].
      unfold wrap64, ALIGNMENT, sizeof_free_block in *.
      rewrite (Z.mod_mod_divide (ptr + 16) (2 ^ 64) 16)
        by (exists (2 ^ 60); reflexivity).
      rewrite <- (Z.mul_1_l 16) at 1. rewrite Z.mod_add by lia. exact Ha.
    + reflexivity.
Qed.

(** X6. Every non-null pointer [tumalloc] returns lies in fresh memory:
    the call has asked [sbrk] exactly once and the pointer is at or above
    the break the call started from, less than two headers beyond it.  No
    request is served from the free list. *)
Theorem tumalloc_returns_fresh_memory (fuel : nat) (s : state) (size : Z) :
  0 < brk s ->
  brk s + 2 * sizeof_free_block < 2 ^ 64 ->
  match tumalloc fuel s size with
  | Done (s', p) =>
      p = NULL \/
      (sbrk_calls s' = S (sbrk_calls s) /\
       brk s <= p < brk s + 2 * sizeof_free_block)
  | _ => True
  end.
Proof.
  unfold sizeof_free_block. intros Hpos Htop.
  destruct (tumalloc fuel s size) as [[s' p]| | |] eqn:Hrun; try exact I.
  destruct (Z.eq_dec p NULL) as [Hp|Hp]; [left; exact Hp|]. right.
  split; [exact (tumalloc_always_grows fuel s size s' p Hrun Hp)|].
  revert Hrun. unfold tumalloc. destruct (HEAD s =? NULL).
  - intros H. inversion H as [H1].
    pose proof (do_alloc_pointer s (wrap64 (size + sizeof_free_block)) Hpos
                  ltac:(unfold ALIGNMENT; lia)) as Hptr.
    rewrite H1 in Hptr. cbn [snd] in Hptr. unfold ALIGNMENT in Hptr.
    destruct Hptr as [Hnull|Hrange]; [contradiction | lia].
  - destruct (tumalloc_scan fuel s (HEAD s) size) as [[s1 r]| | |] eqn:E;
      cbn [bind]; try discriminate.
    pose proof (tumalloc_scan_os _ _ _ _ _ _ E) as (Hb & _).
    apply tumalloc_scan_result in E. destruct E as [_ [->| ->]].
    + pose proof (do_alloc_pointer s1 (wrap64 (size + sizeof_free_block))
                    ltac:(lia) ltac:(unfold ALIGNMENT; lia)) as Hptr.
      destruct (do_alloc s1 _) as [s2 ptr]. cbn [snd] in Hptr.
      destruct (ptr =? NULL) eqn:En; [discriminate|].
      apply Z.eqb_neq in En. unfold ALIGNMENT in Hptr.
      destruct Hptr as [Hnull|Hrange]; [contradiction|].
      intros H. inversion H. subst.
      unfold sizeof_free_block. rewrite wrap64_small by lia. lia.
    + intros H. inversion H. subst. contradiction.
Qed.

Lemma tumalloc_returns_fresh_memory_witness :
  match tumalloc 4 one_free_block 16 with
  | Done (s', p) =>
      p = NULL \/
      (sbrk_calls s' = S (sbrk_calls one_free_block) /\
       brk one_free_block <= p < brk one_free_block + 2 * sizeof_free_block)
  | _ => True
  end.
Proof.
  apply (tumalloc_returns_fresh_memory 4 one_free_block 16).
  - vm_compute. reflexivity.
  - vm_compute. reflexivity.
Defined.

(** ** Release, whatever coalescing does *)

(** X7. How a release of a non-null pointer ends.  It dereferences null
    exactly when the header address [ptr - header_size] is null.
    Otherwise it returns only if the header started with the sentinel,
    and then the released block is the head of the free list, also when
    [coalesce] folded it into its previous neighbour, the break and the
    output being untouched; and it aborts exactly on a header without the
    sentinel, free list as it was, the two messages printed last. *)
Theorem tufree_outcome (fuel : nat) (s : state) (ptr : Z) :
  ptr <> NULL ->
  let block_header := wrap64 (ptr - sizeof_free_block) in
  match tufree fuel s ptr with
  | Done s' =>
      block_header <> NULL /\
      load32 (memory s) block_header = MAGIC /\
      HEAD s' = block_header /\
      same_os s s'
  | Abort a =>
      block_header <> NULL /\
      load32 (memory s) block_header <> MAGIC /\
      HEAD a = HEAD s /\
      sbrk_calls a = sbrk_calls s /\
      stdout a = stdout s ++ [PrintCorruption; PrintCorruptionAt block_header]
  | Fault => block_header = NULL
  | Timeout =>
      block_header <> NULL /\ load32 (memory s) block_header = MAGIC
  end.
Proof.
  intros Hnn block_header. unfold tufree.
  rewrite (proj2 (Z.eqb_neq _ _) Hnn). fold block_header.
  destruct (block_header =? NULL) eqn:Eb; [apply Z.eqb_eq; exact Eb|].
  apply Z.eqb_neq in Eb.
  destruct (load32 (memory s) block_header =? MAGIC) eqn:E.
  - apply Z.eqb_eq in E.
    pose proof (coalesce_quiet fuel (push_free s block_header) block_header) as Hq.
    destruct (coalesce fuel (push_free s block_header) block_header)
      as [[s' b]| | |] eqn:Hc; cbn [bind fst] in *; try contradiction.
    + apply coalesce_frame in Hc. cbn in Hc.
      destruct Hc as (Hh & Hb & Hl & Hn & Ho).
      split; [exact Eb|]. split; [exact E|]. split; [exact Hh|].
      repeat split; assumption.
    + split; [exact Eb | exact E].
  - apply Z.eqb_neq in E. split; [exact Eb|]. split; [exact E|].
    split; [reflexivity|]. split; [reflexivity|].
    cbn. rewrite <- app_assoc. reflexivity.
Qed.

Lemma tufree_outcome_witness :
  match tufree 4 two_adjacent (block_B + sizeof_free_block) with
  | Done s' =>
      block_B <> NULL /\
      load32 (memory two_adjacent) block_B = MAGIC /\
      HEAD s' = block_B /\
      same_os two_adjacent s'
  | Abort a =>
      block_B <> NULL /\
      load32 (memory two_adjacent) block_B <> MAGIC /\
      HEAD a = HEAD two_adjacent /\
      sbrk_calls a = sbrk_calls two_adjacent /\
      stdout a = stdout two_adjacent ++ [PrintCorruption; PrintCorruptionAt block_B]
  | Fault => block_B = NULL
  | Timeout => block_B <> NULL /\ load32 (memory two_adjacent) block_B = MAGIC
  end.
Proof.
  apply (tufree_outcome 4 two_adjacent (block_B + sizeof_free_block)).
  vm_compute. discriminate.
Defined.

(** The pointer whose header would sit at the null address. *)
Example tufree_null_header :
  tufree 4 fresh_heap sizeof_free_block = Fault.
Proof. reflexivity. Qed.

(** ** Blocks that come from heap growth *)

Lemma load32_store64_low m a v : load32 (store64 m a v) a = v mod 2 ^ 32.
Proof.
  pose proof (load_le_store_le_sub 4 8 m a v 0 ltac:(lia) ltac:(simpl; lia)) as H.
  rewrite Z.add_0_r, Z.pow_0_r, Z.div_1_r in H. exact H.
Qed.

(** X8. With a non-empty free list, the block behind every non-null
    pointer [tumalloc] returns has a header that records the requested
    size and a null [next]; no sentinel is stamped.  Releasing that
    pointer therefore aborts, unless the low 32 bits of the requested
    size happen to be the sentinel. *)
Theorem tumalloc_growth_block (fuel : nat) (s : state) (size : Z) :
  HEAD s <> NULL ->
  0 <= size < 2 ^ 64 ->
  0 < brk s ->
  brk s + 2 * sizeof_free_block < 2 ^ 64 ->
  match tumalloc fuel s size with
  | Done (s', p) =>
      p = NULL \/
      (let block_header := p - sizeof_free_block in
       get_size (memory s') block_header = size /\
       get_next (memory s') block_header = NULL /\
       load32 (memory s') block_header = size mod 2 ^ 32 /\
       (size mod 2 ^ 32 <> MAGIC ->
        forall fuel',
          tufree fuel' s' p = Abort (report_corruption s' block_header)))
  | _ => True
  end.
Proof.
  unfold sizeof_free_block. intros Hhead Hsize Hpos Htop.
  unfold tumalloc. rewrite (proj2 (Z.eqb_neq _ _) Hhead).
  destruct (tumalloc_scan fuel s (HEAD s) size) as [[s1 r]| | |] eqn:E;
    cbn [bind]; try exact I.
  pose proof (tumalloc_scan_os _ _ _ _ _ _ E) as (Hb & _).
  apply tumalloc_scan_result in E. destruct E as [_ [->| ->]];
    [|left; reflexivity].
  pose proof (do_alloc_pointer s1 (wrap64 (size + sizeof_free_block))
                ltac:(lia) ltac:(unfold ALIGNMENT; lia)) as Hptr.
  destruct (do_alloc s1 _) as [s2 ptr]. cbn [snd] in Hptr.
  destruct (ptr =? NULL) eqn:En; [exact I|].
  apply Z.eqb_neq in En. unfold ALIGNMENT in Hptr.
  destruct Hptr as [Hnull|Hrange]; [contradiction|].
  right. unfold sizeof_free_block. rewrite wrap64_small by lia.
  replace (ptr + 16 - 16) with ptr by lia.
  rewrite set_memory_memory.
  assert (Hlow : load32 (set_next (set_size (memory s2) ptr size) ptr NULL) ptr
                 = size mod 2 ^ 32).
  { fields. rewrite load32_store64_disjoint by lia.
    rewrite Z.add_0_r. apply load32_store64_low. }
  split; [|split; [|split]].
  - mem_simpl. apply Z.mod_small. exact Hsize.
  - mem_simpl. reflexivity.
  - exact Hlow.
  - intros Hmagic fuel'. unfold tufree.
    assert (Hp : (ptr + 16 =? NULL) = false) by (apply Z.eqb_neq; unfold NULL; lia).
    rewrite Hp. unfold sizeof_free_block.
    replace (ptr + 16 - 16) with ptr by lia.
    rewrite (wrap64_small ptr) by lia.
    rewrite (proj2 (Z.eqb_neq _ _) En).
    rewrite set_memory_memory, Hlow.
    rewrite (proj2 (Z.eqb_neq _ _) Hmagic). reflexivity.
Qed.

Lemma tumalloc_growth_block_witness :
  match tumalloc 4 two_free_blocks 100 with
  | Done (s', p) =>
      p = NULL \/
      (let block_header := p - sizeof_free_block in
       get_size (memory s') block_header = 100 /\
       get_next (memory s') block_header = NULL /\
       load32 (memory s') block_header = 100 mod 2 ^ 32 /\
       (100 mod 2 ^ 32 <> MAGIC ->
        forall fuel',
          tufree fuel' s' p = Abort (report_corruption s' block_header)))
  | _ => True
  end.
Proof.
  apply (tumalloc_growth_block 4 two_free_blocks 100).
  - vm_compute. discriminate.
  - lia.
  - vm_compute. reflexivity.
  - vm_compute. reflexivity.
Defined.

(** The witness is a run that returns a block. *)
Example tumalloc_growth_block_run :
  match tumalloc 4 two_free_blocks 100 with
  | Done (s', p) => p = 16384 + sizeof_free_block /\ free_list 4 s' = [4096; 8192]
  | _ => False
  end.
Proof. vm_compute. split; reflexivity. Qed.

(** ** The scan of the free list *)

(** Blocks smaller than the request are passed over without a write. *)
Lemma tumalloc_scan_skip s size l1 :
  forall curr rest fuel,
    list_at (memory s) curr (l1 ++ rest) ->
    (forall x, In x l1 -> get_size (memory s) x < size) ->
    exists h,
      list_at (memory s) h rest /\
      tumalloc_scan (length l1 + fuel) s curr size = tumalloc_scan fuel s h size.
Proof.
  induction l1 as [|a l1 IH]; intros curr rest fuel Hlist Hsmall.
  - exists curr. split; [exact Hlist | reflexivity].
  - cbn [app] in Hlist. inversion Hlist as [|? ? Hnn Hrest]; subst.
    destruct (IH (get_next (memory s) a) rest fuel Hrest
                (fun x Hx => Hsmall x (or_intror Hx))) as (h & Hh & Hrun).
    exists h. split; [exact Hh|].
    cbn [length Nat.add tumalloc_scan].
    rewrite (proj2 (Z.eqb_neq _ _) Hnn).
    rewrite (proj2 (Z.leb_gt _ _) (Hsmall a (or_introl eq_refl))).
    exact Hrun.
Qed.

Lemma do_alloc_refused s n :
  0 <= n -> n + sizeof_free_block < 2 ^ 63 ->
  brk_limit s < brk s + n + sizeof_free_block ->
  snd (do_alloc s n) = NULL.
Proof.
  unfold sizeof_free_block. intros Hn Hmax Hlimit.
  unfold do_alloc, sbrk, sizeof_free_block.
  rewrite (wrap64_small (n + 16)) by lia.
  rewrite (to_int64_small (n + 16)) by lia.
  assert (E : (0 <=? brk s + (n + 16)) && (brk s + (n + 16) <=? brk_limit s) = false).
  { apply andb_false_iff. right. apply Z.leb_gt. lia. }
  rewrite E. vm_compute. reflexivity.
Qed.

(** X9. When no block of a (non-empty, null-terminated) free list is as
    large as the request and the system refuses to move the break,
    [tumalloc] does not return null: it writes the new header through the
    null pointer [do_alloc] gave it. *)
Theorem tumalloc_no_fit_refused (fuel : nat) (s : state) (size : Z) (L : list Z) :
  HEAD s <> NULL ->
  list_at (memory s) (HEAD s) L ->
  (forall c, In c L -> get_size (memory s) c < size) ->
  (length L < fuel)%nat ->
  0 <= size ->
  size + 2 * sizeof_free_block < 2 ^ 63 ->
  brk_limit s < brk s + size + 2 * sizeof_free_block ->
  tumalloc fuel s size = Fault.
Proof.
  unfold sizeof_free_block. intros Hhead Hlist Hsmall Hfuel Hsize Hmax Hlimit.
  unfold tumalloc. rewrite (proj2 (Z.eqb_neq _ _) Hhead).
  rewrite <- (app_nil_r L) in Hlist.
  destruct (tumalloc_scan_skip s size L (HEAD s) [] (fuel - length L) Hlist Hsmall)
    as (h & Hh & Hrun).
  replace (length L + (fuel - length L))%nat with fuel in Hrun by lia.
  rewrite Hrun. inversion Hh; subst.
  destruct (fuel - length L)%nat as [|k] eqn:Ek; [lia|].
  cbn [tumalloc_scan]. change (NULL =? NULL) with true.
  cbv beta iota delta [bind].
  unfold sizeof_free_block. rewrite (wrap64_small (size + 16)) by lia.
  pose proof (do_alloc_refused s (size + 16) ltac:(lia)
                ltac:(unfold sizeof_free_block; lia)
                ltac:(unfold sizeof_free_block; lia)) as Hnull.
  destruct (do_alloc s (size + 16)) as [s2 ptr]. cbn [snd] in Hnull.
  subst ptr. reflexivity.
Qed.

Lemma tumalloc_no_fit_refused_witness :
  tumalloc 3 two_free_blocks_no_room 100 = Fault.
Proof.
  apply (tumalloc_no_fit_refused 3 two_free_blocks_no_room 100 [4096; 8192]).
  - discriminate.
  - change (HEAD two_free_blocks_no_room) with 4096.
    change (memory two_free_blocks_no_room) with (memory two_free_blocks).
    walk_list.
  - intros c [<-|[<-|[]]]; vm_compute; reflexivity.
  - cbn. lia.
  - lia.
  - vm_compute. reflexivity.
  - vm_compute. reflexivity.
Defined.

(** X10. For a request of fewer than [2^31 - 16] bytes (so that
    [size + header_size] fits the [int] parameter of [split]): when the
    first block of the free list that is at least as large as the request
    has fewer than two headers to spare, [tumalloc] returns null on the
    spot: nothing is written, later blocks are not looked at and the
    system is not asked for memory. *)
Theorem tumalloc_unsplittable_fit (fuel : nat) (s : state) (size : Z)
    (l1 : list Z) (c : Z) (l2 : list Z) :
  list_at (memory s) (HEAD s) (l1 ++ c :: l2) ->
  (forall x, In x l1 -> get_size (memory s) x < size) ->
  size <= get_size (memory s) c < size + 2 * sizeof_free_block ->
  0 <= size ->
  size + sizeof_free_block < 2 ^ 31 ->
  (length l1 < fuel)%nat ->
  tumalloc fuel s size = Done (s, NULL).
Proof.
  unfold sizeof_free_block. intros Hlist Hsmall Hfit Hsize Hmax Hfuel.
  assert (Hhead : HEAD s <> NULL).
  { apply (list_at_nonnull (memory s) (HEAD s) (l1 ++ c :: l2)); [exact Hlist|].
    destruct l1; inversion Hlist; subst; left; reflexivity. }
  unfold tumalloc. rewrite (proj2 (Z.eqb_neq _ _) Hhead).
  destruct (tumalloc_scan_skip s size l1 (HEAD s) (c :: l2) (fuel - length l1)
              Hlist Hsmall) as (h & Hh & Hrun).
  replace (length l1 + (fuel - length l1))%nat with fuel in Hrun by lia.
  rewrite Hrun. inversion Hh as [|? ? Hc Hrest]; subst.
  destruct (fuel - length l1)%nat as [|k] eqn:Ek; [lia|].
  cbn [tumalloc_scan]. rewrite (proj2 (Z.eqb_neq _ _) Hc).
  rewrite (proj2 (Z.leb_le _ _) (proj1 Hfit)).
  unfold take_block, sizeof_free_block.
  rewrite (wrap64_small (size + 16)) by lia.
  rewrite (to_int32_small (size + 16)) by lia.
  rewrite (split_refused s c (size + 16)) by (unfold sizeof_free_block; lia).
  reflexivity.
Qed.

Lemma tumalloc_unsplittable_fit_witness :
  tumalloc 3 two_free_blocks 40 = Done (two_free_blocks, NULL).
Proof.
  apply (tumalloc_unsplittable_fit 3 two_free_blocks 40 [] 4096 [8192]).
  - change (HEAD two_free_blocks) with 4096. cbn [app]. walk_list.
  - intros x [].
  - vm_compute. split; [discriminate | reflexivity].
  - lia.
  - vm_compute. reflexivity.
  - cbn. lia.
Defined.

(** X11. The size arithmetic of the empty-list path wraps.  For a request
    within 32 bytes of [2^64] and an aligned break, [tumalloc] asks
    [sbrk] for [size + 32 - 2^64] bytes, fewer than 32, and returns the
    old break as if the request were served. *)
Theorem tumalloc_size_wraps (fuel : nat) (s : state) (size : Z) :
  HEAD s = NULL ->
  2 ^ 64 - 2 * sizeof_free_block <= size < 2 ^ 64 ->
  0 < brk s ->
  brk s mod ALIGNMENT = 0 ->
  brk s + 2 * sizeof_free_block <= brk_limit s ->
  exists s',
    tumalloc fuel s size = Done (s', brk s) /\
    brk s' = brk s + (size + 2 * sizeof_free_block - 2 ^ 64) /\
    brk s' - brk s < 2 * sizeof_free_block /\
    sbrk_calls s' = S (sbrk_calls s).
Proof.
  unfold sizeof_free_block, ALIGNMENT.
  intros Hhead Hsize Hpos Halign Hlimit.
  unfold tumalloc. rewrite Hhead. change (NULL =? NULL) with true. cbv iota.
  unfold do_alloc, sbrk, sizeof_free_block, ALIGNMENT.
  assert (Hinc : wrap64 (wrap64 (size + 16) + 16) = size + 32 - 2 ^ 64).
  { unfold wrap64. rewrite Z.add_mod_idemp_l by lia.
    replace (size + 16 + 16) with (size + 32 - 2 ^ 64 + 1 * 2 ^ 64) by lia.
    rewrite Z.mod_add by lia. apply Z.mod_small. lia. }
  rewrite Hinc. rewrite to_int64_small by lia.
  rewrite (sbrk_grows_iff s (size + 32 - 2 ^ 64)) by lia.
  rewrite (proj2 (Z.leb_le _ _)) by lia.
  rewrite (proj2 (Z.eqb_eq _ _) Halign).
  cbv beta iota zeta delta [negb].
  assert (Hne : brk s <> SBRK_FAILED).
  { intros Heq. rewrite Heq in Halign. vm_compute in Halign. discriminate. }
  rewrite (proj2 (Z.eqb_neq _ _) Hne).
  eexists. split; [reflexivity|]. cbn [brk sbrk_calls].
  split; [lia|]. split; [lia | reflexivity].
Qed.

Lemma tumalloc_size_wraps_witness :
  exists s',
    tumalloc 1 fresh_heap (2 ^ 64 - 8) = Done (s', brk fresh_heap) /\
    brk s' = brk fresh_heap + (2 ^ 64 - 8 + 2 * sizeof_free_block - 2 ^ 64) /\
    brk s' - brk fresh_heap < 2 * sizeof_free_block /\
    sbrk_calls s' = S (sbrk_calls fresh_heap).
Proof.
  apply (tumalloc_size_wraps 1 fresh_heap (2 ^ 64 - 8)).
  - reflexivity.
  - vm_compute. split; [discriminate | reflexivity].
  - vm_compute. reflexivity.
  - vm_compute. reflexivity.
  - vm_compute. discriminate.
Defined.

(** ** Coalescing on release *)

Lemma find_prev_loop_end fuel m block :
  forall curr r,
    find_prev_loop fuel m curr block = Done r ->
    r <> NULL -> block_end m r = block.
Proof.
  induction fuel as [|k IH]; intros curr r; cbn [find_prev_loop];
    [discriminate|].
  destruct (curr =? NULL); [intros H; inversion H; congruence|].
  fold (block_end m curr).
  destruct (block_end m curr =? block) eqn:E.
  - intros H _. inversion H. subst. apply Z.eqb_eq. exact E.
  - apply IH.
Qed.

(** X12. Forward coalescing.  Releasing a block whose end address is the
    current head of the free list, and which has no previous neighbour on
    the list, returns with the two merged: the released block is the new
    head, its size field is the sum of both sizes plus one header, its
    [next] is the old head's [next], and no byte outside its header has
    changed.  The list reached from it is the old list with the old head
    replaced by the merged block. *)
Theorem tufree_merges_with_head (fuel : nat) (s : state) (ptr : Z) :
  ptr <> NULL ->
  let block := wrap64 (ptr - sizeof_free_block) in
  let size := get_size (memory s) block in
  block <> NULL ->
  load32 (memory s) block = MAGIC ->
  block + sizeof_free_block + size < 2 ^ 64 ->
  HEAD s = block + sizeof_free_block + size ->
  find_prev fuel (push_free s block) block = Done NULL ->
  (2 <= fuel)%nat ->
  exists s',
    tufree fuel s ptr = Done s' /\
    HEAD s' = block /\
    get_size (memory s') block =
      wrap64 (size + wrap64 (get_size (memory s) (HEAD s) + sizeof_free_block)) /\
    get_next (memory s') block = get_next (memory s) (HEAD s) /\
    (forall x, x < block \/ block + sizeof_free_block <= x ->
               memory s' x = memory s x) /\
    (forall L,
       list_at (memory s) (HEAD s) (HEAD s :: L) ->
       (forall x, In x L ->
                  x + sizeof_free_block <= block \/ block + sizeof_free_block <= x) ->
       list_at (memory s') block (block :: L)).
Proof.
  intros Hptr block size Hnn Hmagic Hfit Hhead Hprev Hfuel.
  pose proof (wrap64_range (ptr - sizeof_free_block)) as Hb. fold block in Hb.
  pose proof (get_size_range (memory s) block) as Hs. fold size in Hs.
  set (B := HEAD s) in *. unfold sizeof_free_block in *.
  assert (HB : 0 <= B < 2 ^ 64) by lia.
  set (mp := set_next (memory s) block B).
  assert (Hmp : memory (push_free s block) = mp) by reflexivity.
  assert (Hsz : get_size mp block = size) by (subst mp size; mem_simpl; reflexivity).
  assert (HszB : get_size mp B = get_size (memory s) B)
    by (subst mp; mem_simpl; reflexivity).
  assert (Hnx : get_next mp block = B)
    by (subst mp; mem_simpl; apply Z.mod_small; exact HB).
  assert (Hend : wrap64 (block + size + 16) = B)
    by (rewrite wrap64_small by lia; lia).
  assert (Hnext : find_next fuel (push_free s block) block = Done B).
  { unfold find_next. rewrite Hmp, Hsz. unfold sizeof_free_block.
    rewrite Hend. change (HEAD (push_free s block)) with block.
    destruct fuel as [|[|k]]; [lia | lia |].
    cbn [find_next_loop].
    rewrite (proj2 (Z.eqb_neq _ _) Hnn).
    rewrite (proj2 (Z.eqb_neq block B)) by lia.
    rewrite Hnx.
    rewrite (proj2 (Z.eqb_neq B NULL)) by (unfold NULL; lia).
    rewrite Z.eqb_refl. reflexivity. }
  unfold tufree. rewrite (proj2 (Z.eqb_neq _ _) Hptr).
  change (wrap64 (ptr - sizeof_free_block)) with block.
  rewrite (proj2 (Z.eqb_eq _ _) Hmagic).
  unfold coalesce. rewrite (proj2 (Z.eqb_neq _ _) Hnn).
  rewrite Hprev, Hnext. cbn [bind]. rewrite Hmp.
  unfold merge_prev. change (NULL =? NULL) with true. cbv iota.
  unfold merge_next. rewrite (proj2 (Z.eqb_neq B NULL)) by (unfold NULL; lia).
  rewrite Hsz. unfold sizeof_free_block. rewrite Hend, Z.eqb_refl, HszB.
  set (total := wrap64 (size + wrap64 (get_size (memory s) B + 16))).
  assert (Htotal : 0 <= total < 2 ^ 64) by apply wrap64_range.
  assert (HnxB : get_next (set_size mp block total) B = get_next (memory s) B).
  { subst mp. mem_simpl. reflexivity. }
  rewrite HnxB.
  eexists. split; [reflexivity|]. cbn [fst HEAD memory set_memory].
  pose proof (get_next_range (memory s) B) as HnB.
  split; [reflexivity|]. split; [|split; [|split]].
  - subst mp. mem_simpl. apply Z.mod_small. exact Htotal.
  - mem_simpl. apply Z.mod_small. exact HnB.
  - intros x Hx. subst mp. fields. unfold store64.
    rewrite !store_le_out by lia. reflexivity.
  - intros L HL Hsep. inversion HL as [|? ? HBnn Hrest]; subst.
    constructor; [exact Hnn|].
    rewrite get_next_set_next_same by exact HnB.
    apply (list_at_frame (memory s)); [exact Hrest|].
    intros x Hx. specialize (Hsep x Hx). subst mp. mem_simpl. reflexivity.
Qed.

Lemma tufree_merges_with_head_witness :
  exists s',
    tufree 4 before_free_head (4096 + sizeof_free_block) = Done s' /\
    HEAD s' = 4096 /\
    get_size (memory s') 4096 = MAGIC + 64 + sizeof_free_block /\
    get_next (memory s') 4096 = NULL.
Proof.
  destruct (tufree_merges_with_head 4 before_free_head (4096 + sizeof_free_block))
    as (s' & Hrun & Hhead & Hsize & Hnext & _).
  - discriminate.
  - vm_compute. discriminate.
  - vm_compute. reflexivity.
  - vm_compute. reflexivity.
  - vm_compute. reflexivity.
  - vm_compute. reflexivity.
  - lia.
  - exists s'. split; [exact Hrun|]. split; [exact Hhead|].
    split; [exact Hsize | exact Hnext].
Defined.

(** X13. Backward coalescing.  Releasing a block that has a previous
    neighbour on the free list (lying below it) and no next neighbour
    returns with the neighbour's size grown by the block's size plus one
    header.  The released block is not taken off the list, though: it is
    the head, its own header is intact and its [next] is the old head, so
    the list now starts with a block that lies inside the merged one. *)
Theorem tufree_absorbed_block_stays_head (fuel : nat) (s : state) (ptr prev : Z) :
  ptr <> NULL ->
  0 <= HEAD s < 2 ^ 64 ->
  let block := wrap64 (ptr - sizeof_free_block) in
  block <> NULL ->
  load32 (memory s) block = MAGIC ->
  find_prev fuel (push_free s block) block = Done prev ->
  prev <> NULL ->
  prev + sizeof_free_block <= block ->
  find_next fuel (push_free s block) block = Done NULL ->
  exists s',
    tufree fuel s ptr = Done s' /\
    HEAD s' = block /\
    get_next (memory s') block = HEAD s /\
    get_size (memory s') block = get_size (memory s) block /\
    get_size (memory s') prev =
      wrap64 (get_size (memory s) prev
              + wrap64 (get_size (memory s) block + sizeof_free_block)) /\
    (forall x, x < prev \/ prev + sizeof_free_block <= x ->
               x < block + 8 \/ block + sizeof_free_block <= x ->
               memory s' x = memory s x).
Proof.
  intros Hptr Hhead block Hnn Hmagic Hprev Hpnn Hbelow Hnext.
  unfold sizeof_free_block in *.
  set (mp := set_next (memory s) block (HEAD s)).
  assert (Hmp : memory (push_free s block) = mp) by reflexivity.
  assert (Hend : block_end mp prev = block).
  { apply (find_prev_loop_end fuel mp block (HEAD (push_free s block)));
      [exact Hprev | exact Hpnn]. }
  unfold block_end, sizeof_free_block in Hend.
  unfold tufree. rewrite (proj2 (Z.eqb_neq _ _) Hptr).
  change (wrap64 (ptr - sizeof_free_block)) with block.
  rewrite (proj2 (Z.eqb_eq _ _) Hmagic).
  unfold coalesce. rewrite (proj2 (Z.eqb_neq _ _) Hnn).
  rewrite Hprev, Hnext. cbn [bind]. rewrite Hmp.
  unfold merge_prev, sizeof_free_block.
  rewrite (proj2 (Z.eqb_neq _ _) Hpnn), Hend, Z.eqb_refl.
  assert (Hsp : get_size mp prev = get_size (memory s) prev)
    by (subst mp; mem_simpl; reflexivity).
  assert (Hsb : get_size mp block = get_size (memory s) block)
    by (subst mp; mem_simpl; reflexivity).
  rewrite Hsp, Hsb.
  set (total := wrap64 (get_size (memory s) prev
                        + wrap64 (get_size (memory s) block + 16))).
  assert (Htotal : 0 <= total < 2 ^ 64) by apply wrap64_range.
  match goal with
  | |- context [if ?c then ?a else ?b] => set (m2 := if c then a else b)
  end.
  unfold merge_next. change (NULL =? NULL) with true. cbv iota.
  eexists. split; [reflexivity|]. cbn [fst HEAD memory set_memory].
  split; [reflexivity|].
  subst m2.
  destruct (get_next (set_size mp prev total) prev =? block);
    (split; [|split; [|split]]).
  - subst mp. mem_simpl. apply Z.mod_small. exact Hhead.
  - subst mp. mem_simpl. reflexivity.
  - subst mp. mem_simpl. apply Z.mod_small. exact Htotal.
  - intros x Hx1 Hx2. subst mp. fields. unfold store64.
    rewrite !store_le_out by lia. reflexivity.
  - subst mp. mem_simpl. apply Z.mod_small. exact Hhead.
  - subst mp. mem_simpl. reflexivity.
  - subst mp. mem_simpl. apply Z.mod_small. exact Htotal.
  - intros x Hx1 Hx2. subst mp. fields. unfold store64.
    rewrite !store_le_out by lia. reflexivity.
Qed.

Lemma tufree_absorbed_block_stays_head_witness :
  exists s',
    tufree 4 after_free_block (4096 + sizeof_free_block) = Done s' /\
    HEAD s' = 4096 /\
    get_next (memory s') 4096 = 16 /\
    get_size (memory s') 4096 = MAGIC /\
    get_size (memory s') 16 = 4064 + MAGIC + sizeof_free_block.
Proof.
  destruct (tufree_absorbed_block_stays_head 4 after_free_block
              (4096 + sizeof_free_block) 16)
    as (s' & Hrun & Hhead & Hnext & Hsize & Hprev & _).
  - discriminate.
  - vm_compute. split; [discriminate | reflexivity].
  - vm_compute. discriminate.
  - vm_compute. reflexivity.
  - vm_compute. reflexivity.
  - discriminate.
  - vm_compute. discriminate.
  - vm_compute. reflexivity.
  - exists s'. split; [exact Hrun|]. split; [exact Hhead|].
    split; [exact Hnext|]. split; [exact Hsize | exact Hprev].
Defined.

(** ** Growing a block *)

Lemma tumalloc_stdout fuel s size s' p :
  tumalloc fuel s size = Done (s', p) -> stdout s' = stdout s.
Proof.
  unfold tumalloc. destruct (HEAD s =? NULL).
  - intros H. inversion H as [H1].
    pose proof (do_alloc_os s (wrap64 (size + sizeof_free_block))) as (_ & Ho & _).
    rewrite H1 in Ho. exact Ho.
  - destruct (tumalloc_scan fuel s (HEAD s) size) as [[s1 r]| | |] eqn:E;
      cbn [bind]; try discriminate.
    apply tumalloc_scan_os in E. destruct E as (_ & _ & _ & Ho).
    destruct r as [q|].
    + intros H. inversion H. subst. exact Ho.
    + pose proof (do_alloc_os s1 (wrap64 (size + sizeof_free_block))) as (_ & Ho2 & _).
      destruct (do_alloc s1 _) as [s2 ptr]. cbn [fst] in Ho2.
      destruct (ptr =? NULL); [discriminate|].
      intros H. inversion H. subst. cbn. congruence.
Qed.

Lemma remove_loop_no_abort fuel s curr block a :
  remove_loop fuel s curr block <> Abort a.
Proof.
  revert curr. induction fuel as [|k IH]; intros curr; cbn; [discriminate|].
  destruct (curr =? NULL); [discriminate|].
  destruct (_ =? block); [discriminate | apply IH].
Qed.

Lemma take_block_no_abort fuel s curr size a :
  take_block fuel s curr size <> Abort a.
Proof.
  unfold take_block. destruct (split s curr _) as [s1 sp].
  destruct (sp =? NULL); [discriminate|].
  unfold remove_free_block. destruct (HEAD s1 =? curr); [discriminate|].
  pose proof (remove_loop_no_abort fuel s1 (HEAD s1) curr) as Hr.
  destruct (remove_loop fuel s1 (HEAD s1) curr); cbn [bind];
    try discriminate. intros H. inversion H. subst. exact (Hr _ eq_refl).
Qed.

Lemma tumalloc_scan_no_abort fuel s curr size a :
  tumalloc_scan fuel s curr size <> Abort a.
Proof.
  revert s curr. induction fuel as [|k IH]; intros s curr; [discriminate|].
  cbn [tumalloc_scan].
  destruct (curr =? NULL); [discriminate|].
  destruct (size <=? _); [|apply IH].
  pose proof (take_block_no_abort (S k) s curr size) as Ht.
  destruct (take_block (S k) s curr size) as [[s1 sp]| | |]; cbn [bind];
    try discriminate.
  - destruct (sp =? NULL); [discriminate | apply IH].
  - intros H. inversion H. subst. exact (Ht _ eq_refl).
Qed.

Lemma tumalloc_no_abort fuel s size a : tumalloc fuel s size <> Abort a.
Proof.
  unfold tumalloc. destruct (HEAD s =? NULL); [discriminate|].
  pose proof (tumalloc_scan_no_abort fuel s (HEAD s) size) as Hs.
  destruct (tumalloc_scan fuel s (HEAD s) size) as [[s1 r]| | |]; cbn [bind];
    try discriminate.
  - destruct r; [discriminate|].
    destruct (do_alloc s1 _) as [s2 ptr]. destruct (ptr =? NULL); discriminate.
  - intros H. inversion H. subst. exact (Hs _ eq_refl).
Qed.

(** X14. Growing a block ([new_size] above the size field of a non-null
    pointer's header).  If [turealloc] returns a non-null pointer, the
    heap has grown by exactly one [sbrk] call, one line was printed and
    the old block is the head of the free list.  If the old header lacks
    the sentinel the process aborts, but only after the new block was
    obtained from [sbrk] and the line was printed. *)
Theorem turealloc_grow_outcome (fuel : nat) (s : state) (ptr new_size : Z) :
  ptr <> NULL ->
  let block := wrap64 (ptr - sizeof_free_block) in
  get_size (memory s) block < new_size ->
  match turealloc fuel s ptr new_size with
  | Done (s', new_ptr) =>
      new_ptr = NULL \/
      (HEAD s' = block /\
       sbrk_calls s' = S (sbrk_calls s) /\
       exists old_size, stdout s' = stdout s ++ [PrintRealloc ptr old_size])
  | Abort a =>
      sbrk_calls a = S (sbrk_calls s) /\
      exists old_size,
        stdout a = stdout s ++ [PrintRealloc ptr old_size; PrintCorruption;
                                PrintCorruptionAt block]
  | Fault | Timeout => True
  end.
Proof.
  intros Hptr block Hgrow. unfold turealloc.
  rewrite (proj2 (Z.eqb_neq _ _) Hptr).
  change (wrap64 (ptr - sizeof_free_block)) with block.
  destruct (block =? NULL) eqn:Eb; [exact I|].
  rewrite (proj2 (Z.eqb_neq new_size _)) by lia.
  rewrite (proj2 (Z.ltb_ge new_size _)) by lia.
  pose proof (tumalloc_no_abort fuel s new_size) as Hna.
  destruct (tumalloc fuel s new_size) as [[s1 np]| | |] eqn:Hm;
    cbn [bind]; try exact I; [|exfalso; exact (Hna _ eq_refl)].
  destruct (np =? NULL) eqn:En; cbv beta iota zeta delta [negb].
  - left. apply Z.eqb_eq. exact En.
  - apply Z.eqb_neq in En.
    pose proof (tumalloc_always_grows _ _ _ _ _ Hm En) as Hcalls.
    pose proof (tumalloc_stdout _ _ _ _ _ Hm) as Hout.
    set (old := get_size (memory s1) block).
    set (s3 := set_memory (print s1 (PrintRealloc ptr old))
                 (memcpy (memory (print s1 (PrintRealloc ptr old))) np ptr old)).
    unfold tufree. rewrite (proj2 (Z.eqb_neq _ _) Hptr).
    change (wrap64 (ptr - sizeof_free_block)) with block.
    rewrite Eb.
    destruct (load32 (memory s3) block =? MAGIC).
    + pose proof (coalesce_quiet fuel (push_free s3 block) block) as Hq.
      destruct (coalesce fuel (push_free s3 block) block)
        as [[s4 b]| | |] eqn:Hc; cbn [bind fst] in *; try contradiction;
        try exact I.
      apply coalesce_frame in Hc. cbn in Hc.
      destruct Hc as (Hh & _ & _ & Hn & Ho).
      right. split; [exact Hh|]. split; [congruence|].
      exists old. rewrite Ho, Hout. reflexivity.
    + cbn [bind]. split; [cbn; exact Hcalls|].
      exists old. cbn. rewrite Hout. rewrite <- !app_assoc. reflexivity.
Qed.

Lemma turealloc_grow_outcome_witness :
  match turealloc 4 shrink_state 4112 100 with
  | Done (s', new_ptr) =>
      new_ptr = NULL \/
      (HEAD s' = 4096 /\
       sbrk_calls s' = S (sbrk_calls shrink_state) /\
       exists old_size, stdout s' = stdout shrink_state ++ [PrintRealloc 4112 old_size])
  | Abort a =>
      sbrk_calls a = S (sbrk_calls shrink_state) /\
      exists old_size,
        stdout a = stdout shrink_state
                   ++ [PrintRealloc 4112 old_size; PrintCorruption;
                       PrintCorruptionAt 4096]
  | Fault | Timeout => True
  end.
Proof.
  apply (turealloc_grow_outcome 4 shrink_state 4112 100).
  - discriminate.
  - vm_compute. reflexivity.
Defined.

(** That run aborts: the block came without a sentinel. *)
Example turealloc_grow_aborts :
  match turealloc 4 shrink_state 4112 100 with
  | Abort a =>
      stdout a = [PrintRealloc 4112 64; PrintCorruption; PrintCorruptionAt 4096] /\
      brk a = 8192 + 100 + 2 * sizeof_free_block
  | _ => False
  end.
Proof. vm_compute. split; reflexivity. Qed.

(** ** What becomes of a block taken from the free list *)

Lemma get_next_frame m m' c :
  (forall x, c + 8 <= x < c + 16 -> m' x = m x) ->
  get_next m' c = get_next m c.
Proof.
  intros H. unfold get_next, off_next, load64. apply load_le_ext.
  intros x Hx. unfold byte_at. rewrite H; [reflexivity|].
  change (Z.of_nat 8) with 8 in Hx. lia.
Qed.

(** X15. For a request of fewer than [2^31 - 16] bytes (so that
    [size + header_size] fits the [int] parameter of [split]): when the
    free list consists of one block, lying inside the address space, with
    room for the request and two headers, [tumalloc] takes the block off
    the list and then carries on: it either returns a block obtained from
    [sbrk] or, if [do_alloc] gives null, dereferences null.  Either way
    the free list is empty afterwards, so neither the block nor the
    remainder split off it can be handed out again. *)
Theorem tumalloc_drops_taken_block (fuel : nat) (s : state) (size : Z) :
  HEAD s <> NULL ->
  0 <= HEAD s ->
  get_next (memory s) (HEAD s) = NULL ->
  0 <= size ->
  size + sizeof_free_block < 2 ^ 31 ->
  size + 2 * sizeof_free_block <= get_size (memory s) (HEAD s) ->
  HEAD s + sizeof_free_block + get_size (memory s) (HEAD s) <= 2 ^ 64 ->
  (2 <= fuel)%nat ->
  match tumalloc fuel s size with
  | Done (s', p) => HEAD s' = NULL /\ sbrk_calls s' = S (sbrk_calls s)
  | Fault => True
  | Abort _ | Timeout => False
  end.
Proof.
  unfold sizeof_free_block.
  intros Hnn Hpos Hnext Hsize Hmax Hfit Hin Hfuel.
  set (c := HEAD s) in *.
  unfold tumalloc. fold c. rewrite (proj2 (Z.eqb_neq _ _) Hnn).
  destruct fuel as [|[|k]]; [lia | lia |].
  cbn [tumalloc_scan]. rewrite (proj2 (Z.eqb_neq _ _) Hnn).
  rewrite (proj2 (Z.leb_le size _)) by lia.
  unfold take_block, sizeof_free_block.
  rewrite (wrap64_small (size + 16)) by lia.
  rewrite (to_int32_small (size + 16)) by lia.
  pose proof (split_done s c (size + 16) ltac:(lia) Hpos
                ltac:(unfold sizeof_free_block; lia)
                ltac:(unfold sizeof_free_block; lia)) as Hd.
  pose proof (split_frame s c (size + 16)) as Hf.
  cbv zeta in Hd, Hf. unfold sizeof_free_block in Hd.
  destruct (split s c (size + 16)) as [s1 sp]. cbn [fst snd] in Hd, Hf.
  destruct Hd as (-> & _ & _ & _ & Hframe).
  destruct Hf as (Hh1 & _ & _ & Hc1 & _).
  rewrite (proj2 (Z.eqb_neq _ _) Hnn).
  assert (Hn1 : get_next (memory s1) c = NULL).
  { rewrite <- Hnext. apply get_next_frame. intros x Hx. apply Hframe; lia. }
  unfold remove_free_block. rewrite Hh1. fold c. rewrite Z.eqb_refl.
  cbn [bind]. rewrite Hn1.
  set (s3 := set_memory (set_HEAD s1 NULL)
               (store32 (set_size (memory (set_HEAD s1 NULL)) c size) c MAGIC)).
  change (c =? NULL) with (c =? NULL).
  rewrite (proj2 (Z.eqb_neq _ _) Hnn).
  assert (Hn3 : get_next (memory s3) c = NULL).
  { rewrite <- Hn1. apply get_next_frame. intros x Hx. subst s3.
    cbn [memory set_memory set_HEAD]. fields. unfold store32, store64.
    rewrite !store_le_out by lia. reflexivity. }
  rewrite Hn3. cbn [tumalloc_scan]. change (NULL =? NULL) with true.
  cbv beta iota delta [bind].
  pose proof (do_alloc_os s3 (size + 16)) as (_ & _ & Hh3 & _).
  pose proof (do_alloc_calls s3 (size + 16)) as Hc3.
  destruct (do_alloc s3 (size + 16)) as [s4 ptr]. cbn [fst] in Hh3, Hc3.
  destruct (ptr =? NULL); [exact I|].
  cbn [HEAD sbrk_calls set_memory]. split; [exact Hh3|].
  rewrite Hc3. subst s3. cbn. rewrite Hc1. reflexivity.
Qed.

Lemma tumalloc_drops_taken_block_witness :
  match tumalloc 4 one_free_block 16 with
  | Done (s', p) =>
      HEAD s' = NULL /\ sbrk_calls s' = S (sbrk_calls one_free_block)
  | Fault => True
  | Abort _ | Timeout => False
  end.
Proof.
  apply (tumalloc_drops_taken_block 4 one_free_block 16).
  - discriminate.
  - vm_compute. discriminate.
  - vm_compute. reflexivity.
  - lia.
  - vm_compute. reflexivity.
  - vm_compute. discriminate.
  - vm_compute. discriminate.
  - lia.
Defined.

(** ** Sizes that wrap *)

(** X16. [tucalloc] does not check its multiplication.  When
    [num * size] is a multiple of [2^64], it behaves as [tumalloc 0]:
    same outcome, same pointer, and not one byte of memory is zeroed. *)
Theorem tucalloc_product_wraps (fuel : nat) (s : state) (num size : Z) :
  wrap64 (num * size) = 0 ->
  match tumalloc fuel s 0 with
  | Done (s1, p) =>
      exists s2,
        tucalloc fuel s num size = Done (s2, p) /\
        (forall x, memory s2 x = memory s1 x) /\
        HEAD s2 = HEAD s1 /\ brk s2 = brk s1
  | Abort a => tucalloc fuel s num size = Abort a
  | Fault => tucalloc fuel s num size = Fault
  | Timeout => tucalloc fuel s num size = Timeout
  end.
Proof.
  intros Hwrap. unfold tucalloc. rewrite Hwrap.
  destruct (tumalloc fuel s 0) as [[s1 p]| | |]; cbn [bind]; try reflexivity.
  destruct (p =? NULL); cbv beta iota zeta delta [negb].
  - exists s1. split; [reflexivity|]. split; [reflexivity|]. split; reflexivity.
  - eexists. split; [reflexivity|]. cbn [memory HEAD brk set_memory].
    split; [|split; reflexivity].
    intros x. apply memset_out. lia.
Qed.

Lemma tucalloc_product_wraps_witness :
  match tumalloc 1 fresh_heap 0 with
  | Done (s1, p) =>
      exists s2,
        tucalloc 1 fresh_heap (2 ^ 32) (2 ^ 32) = Done (s2, p) /\
        (forall x, memory s2 x = memory s1 x) /\
        HEAD s2 = HEAD s1 /\ brk s2 = brk s1
  | Abort a => tucalloc 1 fresh_heap (2 ^ 32) (2 ^ 32) = Abort a
  | Fault => tucalloc 1 fresh_heap (2 ^ 32) (2 ^ 32) = Fault
  | Timeout => tucalloc 1 fresh_heap (2 ^ 32) (2 ^ 32) = Timeout
  end.
Proof.
  apply (tucalloc_product_wraps 1 fresh_heap (2 ^ 32) (2 ^ 32)).
  vm_compute. reflexivity.
Defined.



(** ** Releasing the head of the free list *)

(** X18. Releasing a block that is already the head of the free list
    (a second release right after the first, say) never returns and is
    never reported: the sentinel is still in place, the block's [next] is
    made to point at the block itself, and [find_prev] walks that cycle
    until the fuel is gone, for every amount of fuel. *)
Theorem tufree_of_list_head_never_returns (s : state) (ptr : Z) :
  ptr <> NULL ->
  let block := wrap64 (ptr - sizeof_free_block) in
  block <> NULL ->
  load32 (memory s) block = MAGIC ->
  HEAD s = block ->
  block_end (memory s) block <> block ->
  forall fuel, tufree fuel s ptr = Timeout.
Proof.
  intros Hptr block Hnn Hmagic Hhead Hend fuel.
  pose proof (wrap64_range (ptr - sizeof_free_block)) as Hb. fold block in Hb.
  unfold tufree. rewrite (proj2 (Z.eqb_neq _ _) Hptr).
  change (wrap64 (ptr - sizeof_free_block)) with block.
  rewrite (proj2 (Z.eqb_eq _ _) Hmagic).
  unfold coalesce. rewrite (proj2 (Z.eqb_neq _ _) Hnn).
  unfold find_prev. change (HEAD (push_free s block)) with block.
  change (memory (push_free s block)) with (set_next (memory s) block (HEAD s)).
  rewrite find_prev_loop_self_cycle; [reflexivity | exact Hnn | |].
  - rewrite Hhead. apply get_next_set_next_same. exact Hb.
  - unfold block_end in Hend.
    replace (get_size (set_next (memory s) block (HEAD s)) block)
      with (get_size (memory s) block) by (mem_simpl; reflexivity).
    exact Hend.
Qed.

Lemma tufree_of_list_head_never_returns_witness :
  tufree 7 (push_free stamped_block 4096) 4112 = Timeout.
Proof.
  apply (tufree_of_list_head_never_returns (push_free stamped_block 4096) 4112).
  - discriminate.
  - vm_compute. discriminate.
  - vm_compute. reflexivity.
  - vm_compute. reflexivity.
  - vm_compute. discriminate.
Defined.
